(** * Gridding convolution engine of the 3D type-2 NUFFT

    A shallow embedding of [src/NUFFT/FGG_Convolution3D_type2.c]
    (the [mexFunction] that convolves a uniform periodic grid with a
    truncated separable Gaussian, one output per knot) and the properties
    its specification states about it.

    Conventions of the embedding.
    - C [double] arithmetic is idealised as arithmetic on the real numbers
      [R]: no rounding, no infinities, no NaN.  [PI] is the source's
      literal, and the specification's pi is read as that constant.
    - C [int] is [Z] (no overflow).  The entries of [Scales] that the source
      uses as integers ([M_sp] and the grid extents [M_rx], [M_ry], [M_rz])
      are kept as [Z] and injected with [IZR] where the source uses them in
      floating-point expressions.
    - Arrays are lists; a read or a write outside an array is undefined
      behaviour in C and is [None] here, so every function that touches an
      array returns [option].
    - [malloc] returns memory with unspecified contents: the initial
      contents of the three scratch buffers are an explicit argument.

    Organisation: the model of the source, then the definitions the
    properties are stated with, then the lemmas on arrays, loops, the
    recurrences and the accumulation that give the run in closed form
    ([mexFunction_value]), then the properties C1 to C10. *)

From Stdlib Require Import ZArith Reals Lra Lia.
From stdpp Require Import base option list.

#[local] Open Scope Z_scope.

(** ** Constants and arrays *)

(** [#define PI 3.141592653589793] *)
Definition PI : R := (3141592653589793 / 1000000000000000)%R.

(** [a[i]] as an rvalue. *)
Definition load (a : list R) (i : Z) : option R :=
  if decide (0 ≤ i) then a !! Z.to_nat i else None.

(** [a[i] = v]. *)
Definition store (a : list R) (i : Z) (v : R) : option (list R) :=
  if decide (0 ≤ i < Z.of_nat (length a))
  then Some (<[Z.to_nat i := v]> a) else None.

(** [malloc(n*sizeof(double))]: [n] cells holding whatever the heap held,
    here the first [n] values of [junk] (completed with zeros when [junk]
    is shorter). *)
Definition malloc (n : Z) (junk : list R) : list R :=
  resize (Z.to_nat n) 0%R junk.

(** ** Loops *)

(** [n] iterations of [body], the loop variable starting at [j] and moving
    by [step] after each one. *)
Fixpoint iterate {S : Type} (step : Z) (n : nat) (j : Z)
    (body : Z → S → option S) (s : S) : option S :=
  match n with
  | O => Some s
  | Datatypes.S n' => s' ← body j s; iterate step n' (j + step) body s'
  end.

(** [for (j = lo; j < hi; j++) body] *)
Definition for_below {S : Type} (lo hi : Z) :=
  @iterate S 1 (Z.to_nat (hi - lo)) lo.

(** [for (j = lo; j <= hi; j++) body] *)
Definition for_upto {S : Type} (lo hi : Z) :=
  @iterate S 1 (Z.to_nat (hi + 1 - lo)) lo.

(** [for (j = hi; j >= lo; j--) body] *)
Definition for_downto {S : Type} (hi lo : Z) :=
  @iterate S (-1) (Z.to_nat (hi + 1 - lo)) hi.

(** ** Inputs and state *)

(** The parameter vector [Scales = [M_sp, taux, tauy, tauz, M_rx, M_ry, M_rz]]. *)
Record scales := {
  M_sp : Z;
  taux : R; tauy : R; tauz : R;
  M_rx : Z; M_ry : Z; M_rz : Z
}.

(** The right-hand-side arguments [prhs[0..6]]; [M] is [mxGetM] of the
    knot matrix, whose data [knots] holds the x column, then the y column,
    then the z column. *)
Record mex_args := {
  ftaur : list R;
  ftaui : list R;
  M : Z;
  knots : list R;
  E_3x : list R; E_3y : list R; E_3z : list R;
  Scales : scales
}.

(** The mutable arrays of [mexFunction]: the two outputs and the three
    scratch buffers. *)
Record state := {
  outArrayR : list R; outArrayI : list R;
  E_2x : list R; E_2y : list R; E_2z : list R
}.

Definition set_E_2 (bx by_ bz : list R) (s : state) : state :=
  {| outArrayR := outArrayR s; outArrayI := outArrayI s;
     E_2x := bx; E_2y := by_; E_2z := bz |}.

Definition set_out (oR oI : list R) (s : state) : state :=
  {| outArrayR := oR; outArrayI := oI;
     E_2x := E_2x s; E_2y := E_2y s; E_2z := E_2z s |}.

(** ** Per-axis quantities of one knot *)

(** [m = floor(M_r*knot/(2*PI))] *)
Definition nearest (M_r : Z) (knot : R) : Z :=
  Int_part (IZR M_r * knot / (2 * PI))%R.

(** [x = knot - m*PI/M_rd2] with [M_rd2 = M_r/2] *)
Definition subcell (M_r : Z) (knot : R) : R :=
  (knot - IZR (nearest M_r knot) * PI / (IZR M_r / 2))%R.

(** [E_1 = exp(-x*x/(4*tau))] *)
Definition E_1 (tau x : R) : R := exp (- x * x / (4 * tau))%R.

(** [E_2dummy = exp(x*PI/(M_r*tau))] *)
Definition E_2dummy (M_r : Z) (tau x : R) : R :=
  exp (x * PI / (IZR M_r * tau))%R.

(** The boundary tests and the wrapped index of one axis:
    [l = (m+l+M_rd2) >= 0; r = (m+l) < M_rd2;
     ind = m+l+(r-l)*M_r + M_rd2].
    [M_rd2] is the double [M_r/2]; the two comparisons and the final
    conversion to [int] (truncation) are written on the doubled integers,
    which is exact for every integer extent, even or odd. *)
Definition lower_test (M_r m l : Z) : Z := Z.b2z (0 <=? 2 * (m + l) + M_r).
Definition upper_test (M_r m l : Z) : Z := Z.b2z (2 * (m + l) <? M_r).
Definition wrapped (M_r m l : Z) : Z :=
  Z.quot (2 * (m + l + (upper_test M_r m l - lower_test M_r m l) * M_r) + M_r) 2.

(** ** The weight-sequence recurrences *)

(** [E_2[j] = dummy*E_2[j-1]] *)
Definition recur_fwd (dummy : R) (j : Z) (buf : list R) : option (list R) :=
  prev ← load buf (j - 1); store buf j (dummy * prev)%R.

(** [E_2[j] = E_2[j+1]*dummy_inv] *)
Definition recur_bwd (dummy_inv : R) (j : Z) (buf : list R) : option (list R) :=
  next ← load buf (j + 1); store buf j (next * dummy_inv)%R.

(** One iteration of a loop that updates the three scratch buffers in turn. *)
Definition on_E_2 (fx fy fz : Z → list R → option (list R))
    (j : Z) (s : state) : option state :=
  bx ← fx j (E_2x s); by_ ← fy j (E_2y s); bz ← fz j (E_2z s);
  Some (set_E_2 bx by_ bz s).

(** The two recurrence loops of one knot. *)
Definition fill_E_2 (M_sp : Z) (dx dy dz : R) (s : state) : option state :=
  s1 ← for_below M_sp (2 * M_sp)
         (on_E_2 (recur_fwd dx) (recur_fwd dy) (recur_fwd dz)) s;
  for_downto (M_sp - 2) 0
    (on_E_2 (recur_bwd (1 / dx)) (recur_bwd (1 / dy)) (recur_bwd (1 / dz))) s1.

(** The commented-out loop the recurrences replace:
    [for(j=0;j<TwoM_sp;j++) E_2[j] = pow(E_2dummy, j-M_sp+1)]. *)
Definition pow_fill (M_sp : Z) (dx dy dz : R) (s : state) : option state :=
  for_below 0 (2 * M_sp)
    (on_E_2 (λ j b, store b j (powerRZ dx (j - M_sp + 1)))
            (λ j b, store b j (powerRZ dy (j - M_sp + 1)))
            (λ j b, store b j (powerRZ dz (j - M_sp + 1)))) s.

(** ** The accumulation loops *)

Section Engine.
Context (a : mex_args).

#[local] Abbreviation p := (Scales a).
#[local] Abbreviation N2 := (M_rx p * M_ry p).

(** Body of the loop over [l1]. *)
Definition conv_x (i m1 yind zind : Z) (V1r : R) (l1 : Z) (s : state)
    : option state :=
  let xind := wrapped (M_rx p) m1 l1 in
  let ind := xind + M_rx p * yind + N2 * zind in
  e2 ← load (E_2x s) (M_sp p + l1 - 1);
  e3 ← load (E_3x a) (M_sp p + l1 - 1);
  let E_23x := (e2 * e3)%R in
  fr ← load (ftaur a) ind;
  accR ← load (outArrayR s) i;
  oR ← store (outArrayR s) i (accR + V1r * E_23x * fr)%R;
  fi ← load (ftaui a) ind;
  accI ← load (outArrayI s) i;
  oI ← store (outArrayI s) i (accI + V1r * E_23x * fi)%R;
  Some (set_out oR oI s).

(** Body of the loop over [l2]. *)
Definition conv_y (i m1 m2 zind : Z) (V2r : R) (l2 : Z) (s : state)
    : option state :=
  e2 ← load (E_2y s) (M_sp p + l2 - 1);
  e3 ← load (E_3y a) (M_sp p + l2 - 1);
  let E_23y := (e2 * e3)%R in
  let V1r := (V2r * E_23y)%R in
  let yind := wrapped (M_ry p) m2 l2 in
  for_upto (1 - M_sp p) (M_sp p) (conv_x i m1 yind zind V1r) s.

(** Body of the loop over [l3]. *)
Definition conv_z (i m1 m2 m3 : Z) (V0r : R) (l3 : Z) (s : state)
    : option state :=
  e2 ← load (E_2z s) (M_sp p + l3 - 1);
  e3 ← load (E_3z a) (M_sp p + l3 - 1);
  let E_23z := (e2 * e3)%R in
  let V2r := (V0r * E_23z)%R in
  let zind := wrapped (M_rz p) m3 l3 in
  for_upto (1 - M_sp p) (M_sp p) (conv_y i m1 m2 zind V2r) s.

(** Body of the loop over the knots. *)
Definition knot_body (i : Z) (s : state) : option state :=
  let twoM := 2 * M a in
  knotx ← load (knots a) i;
  knoty ← load (knots a) (i + M a);
  knotz ← load (knots a) (i + twoM);
  let m1 := nearest (M_rx p) knotx in
  let m2 := nearest (M_ry p) knoty in
  let m3 := nearest (M_rz p) knotz in
  let x := subcell (M_rx p) knotx in
  let E_1x := E_1 (taux p) x in
  let E_2xdummy := E_2dummy (M_rx p) (taux p) x in
  let y := subcell (M_ry p) knoty in
  let E_1y := E_1 (tauy p) y in
  let E_2ydummy := E_2dummy (M_ry p) (tauy p) y in
  let z := subcell (M_rz p) knotz in
  let E_1z := E_1 (tauz p) z in
  let E_2zdummy := E_2dummy (M_rz p) (tauz p) z in
  s1 ← fill_E_2 (M_sp p) E_2xdummy E_2ydummy E_2zdummy s;
  let E_1xyz := (E_1x * E_1y * E_1z)%R in
  let V0r := E_1xyz in
  for_upto (1 - M_sp p) (M_sp p) (conv_z i m1 m2 m3 V0r) s1.

(** [outArrayR[i]=0; outArrayI[i]=0] *)
Definition zero_body (i : Z) (s : state) : option state :=
  oR ← store (outArrayR s) i 0%R;
  oI ← store (outArrayI s) i 0%R;
  Some (set_out oR oI s).

(** Everything before the loop over the knots: the scratch buffers are
    allocated (over heap contents [gx], [gy], [gz]), the outputs are
    created by [mxCreateDoubleMatrix] (which zeroes them) and zeroed
    again by the first loop, the central slots are seeded. *)
Definition mex_init (gx gy gz : list R) : option state :=
  let TwoM_sp := 2 * M_sp p in
  let s0 := {| outArrayR := replicate (Z.to_nat (M a)) 0%R;
               outArrayI := replicate (Z.to_nat (M a)) 0%R;
               E_2x := malloc TwoM_sp gx;
               E_2y := malloc TwoM_sp gy;
               E_2z := malloc TwoM_sp gz |} in
  s1 ← for_below 0 (M a) zero_body s0;
  bx ← store (E_2x s1) (M_sp p - 1) 1%R;
  by_ ← store (E_2y s1) (M_sp p - 1) 1%R;
  bz ← store (E_2z s1) (M_sp p - 1) 1%R;
  Some (set_E_2 bx by_ bz s1).

(** The state after the first [k] knots. *)
Definition after_knots (gx gy gz : list R) (k : nat) : option state :=
  s0 ← mex_init gx gy gz; iterate 1 k 0 knot_body s0.

(** The whole function: the pair [plhs[0]], [plhs[1]]. *)
Definition mexFunction (gx gy gz : list R) : option (list R * list R) :=
  s0 ← mex_init gx gy gz;
  s ← for_below 0 (M a) knot_body s0;
  Some (outArrayR s, outArrayI s).

End Engine.

(** * Definitions used to state the properties *)

(** The sequence the recurrences are meant to produce: [rho^l] for [l] from
    [1-M_sp] to [M_sp], the value for [l] in slot [M_sp+l-1]. *)
Definition weight_seq (M_sp : Z) (rho : R) : list R :=
  (λ j, powerRZ rho (j - M_sp + 1)) <$> seqZ 0 (2 * M_sp).

Definition Rsum (l : list R) : R := foldr Rplus 0%R l.

(** The offsets [1-M_sp .. M_sp] of the truncation window. *)
Definition offsets (M_sp : Z) : list Z := seqZ (1 - M_sp) (2 * M_sp).

(** The value of a cell that is known to exist. *)
Definition rd (a : list R) (i : Z) : R := default 0%R (load a i).

(** [outArrayR[i] += vR; outArrayI[i] += vI] *)
Definition bump (i : Z) (vR vI : R) (s : state) : state :=
  set_out (alter (λ x, x + vR)%R (Z.to_nat i) (outArrayR s))
          (alter (λ x, x + vI)%R (Z.to_nat i) (outArrayI s)) s.

(** The states the accumulation loops of knot [i] run in: the scratch
    buffers hold [bx], [by_], [bz] and the outputs have a slot [i]. *)
Definition accumulating (i : Z) (bx by_ bz : list R) (s : state) : Prop :=
  E_2x s = bx ∧ E_2y s = by_ ∧ E_2z s = bz ∧
  0 ≤ i < Z.of_nat (length (outArrayR s)) ∧
  0 ≤ i < Z.of_nat (length (outArrayI s)).

Section Closed_form.
Context (a : mex_args).

#[local] Abbreviation p := (Scales a).

(** The linear index [ind = xind + M_rx*yind + N2*zind]. *)
Definition linear (xind yind zind : Z) : Z :=
  xind + M_rx p * yind + M_rx p * M_ry p * zind.

(** What one offset triple adds when the scratch buffers hold [bx], [by_],
    [bz], as the source associates it. *)
Definition term (bx by_ bz : list R) (grid : list R) (V0r : R)
    (m1 m2 m3 l1 l2 l3 : Z) : R :=
  (V0r * (rd bz (M_sp p + l3 - 1) * rd (E_3z a) (M_sp p + l3 - 1))
       * (rd by_ (M_sp p + l2 - 1) * rd (E_3y a) (M_sp p + l2 - 1))
       * (rd bx (M_sp p + l1 - 1) * rd (E_3x a) (M_sp p + l1 - 1))
       * rd grid (linear (wrapped (M_rx p) m1 l1) (wrapped (M_ry p) m2 l2)
                         (wrapped (M_rz p) m3 l3)))%R.

Definition triple_sum (bx by_ bz : list R) (grid : list R) (V0r : R)
    (m1 m2 m3 : Z) : R :=
  Rsum ((λ l3, Rsum ((λ l2, Rsum ((λ l1,
    term bx by_ bz grid V0r m1 m2 m3 l1 l2 l3)
    <$> offsets (M_sp p))) <$> offsets (M_sp p))) <$> offsets (M_sp p)).

(** The value of a knot at [(knotx, knoty, knotz)] over the samples
    [grid]: the triple sum with the sequences of powers in place of the
    scratch buffers. *)
Definition knot_sum (grid : list R) (knotx knoty knotz : R) : R :=
  let x := subcell (M_rx p) knotx in
  let y := subcell (M_ry p) knoty in
  let z := subcell (M_rz p) knotz in
  triple_sum
    (weight_seq (M_sp p) (E_2dummy (M_rx p) (taux p) x))
    (weight_seq (M_sp p) (E_2dummy (M_ry p) (tauy p) y))
    (weight_seq (M_sp p) (E_2dummy (M_rz p) (tauz p) z))
    grid
    (E_1 (taux p) x * E_1 (tauy p) y * E_1 (tauz p) z)%R
    (nearest (M_rx p) knotx) (nearest (M_ry p) knoty) (nearest (M_rz p) knotz).

(** The three coordinates of knot [i]. *)
Definition knot_x (i : Z) : R := rd (knots a) i.
Definition knot_y (i : Z) : R := rd (knots a) (i + M a).
Definition knot_z (i : Z) : R := rd (knots a) (i + 2 * M a).

Definition knot_value (grid : list R) (i : Z) : R :=
  knot_sum grid (knot_x i) (knot_y i) (knot_z i).

Definition engine_out (grid : list R) : list R :=
  knot_value grid <$> seqZ 0 (M a).

(** Every array access of the run is inside its array. *)
Record in_bounds : Prop := {
  ib_M_sp : 1 ≤ M_sp p;
  ib_knots : 3 * M a ≤ Z.of_nat (length (knots a));
  ib_E_3x : 2 * M_sp p ≤ Z.of_nat (length (E_3x a));
  ib_E_3y : 2 * M_sp p ≤ Z.of_nat (length (E_3y a));
  ib_E_3z : 2 * M_sp p ≤ Z.of_nat (length (E_3z a));
  ib_cells : ∀ i l1 l2 l3, 0 ≤ i < M a →
    1 - M_sp p ≤ l1 ≤ M_sp p → 1 - M_sp p ≤ l2 ≤ M_sp p →
    1 - M_sp p ≤ l3 ≤ M_sp p →
    0 ≤ linear (wrapped (M_rx p) (nearest (M_rx p) (knot_x i)) l1)
               (wrapped (M_ry p) (nearest (M_ry p) (knot_y i)) l2)
               (wrapped (M_rz p) (nearest (M_rz p) (knot_z i)) l3)
      < Z.of_nat (Nat.min (length (ftaur a)) (length (ftaui a)))
}.

(** The scratch buffers between two knots: allocated, central slots 1. *)
Definition seeded (s : state) : Prop :=
  length (E_2x s) = Z.to_nat (2 * M_sp p) ∧
  length (E_2y s) = Z.to_nat (2 * M_sp p) ∧
  length (E_2z s) = Z.to_nat (2 * M_sp p) ∧
  load (E_2x s) (M_sp p - 1) = Some 1%R ∧
  load (E_2y s) (M_sp p - 1) = Some 1%R ∧
  load (E_2z s) (M_sp p - 1) = Some 1%R.

(** The scratch buffers knot [i] leaves behind. *)
Definition scratch_of (i : Z) (s : state) : state :=
  set_E_2
    (weight_seq (M_sp p)
       (E_2dummy (M_rx p) (taux p) (subcell (M_rx p) (knot_x i))))
    (weight_seq (M_sp p)
       (E_2dummy (M_ry p) (tauy p) (subcell (M_ry p) (knot_y i))))
    (weight_seq (M_sp p)
       (E_2dummy (M_rz p) (tauz p) (subcell (M_rz p) (knot_z i)))) s.

(** The output array once the first [k] knots are done. *)
Definition partial_out (grid : list R) (k : Z) : list R :=
  (λ j, if decide (j < k) then knot_value grid j else 0%R)
  <$> seqZ 0 (M a).

(** The state before the first knot, over heap contents [gx], [gy], [gz]. *)
Definition initial (gx gy gz : list R) : state :=
  {| outArrayR := partial_out (ftaur a) 0;
     outArrayI := partial_out (ftaui a) 0;
     E_2x := <[Z.to_nat (M_sp p - 1) := 1%R]> (malloc (2 * M_sp p) gx);
     E_2y := <[Z.to_nat (M_sp p - 1) := 1%R]> (malloc (2 * M_sp p) gy);
     E_2z := <[Z.to_nat (M_sp p - 1) := 1%R]> (malloc (2 * M_sp p) gz) |}.

(** The state after [k] knots: their outputs are final, the others are
    still zero, and the scratch buffers hold the powers of the ratios
    of the last knot. *)
Definition state_after (gx gy gz : list R) (k : nat) : state :=
  match k with
  | O => initial gx gy gz
  | Datatypes.S k' =>
      set_out (partial_out (ftaur a) (Z.of_nat k))
              (partial_out (ftaui a) (Z.of_nat k))
              (scratch_of (Z.of_nat k') (initial gx gy gz))
  end.

End Closed_form.

(** ** The stated domain of the inputs *)

(** What keeps every access inside its array: truncation half-width at
    least 1, even grid extents at least [2*M_sp], knot coordinates in
    [[0, 2*PI)], arrays of the documented lengths. *)
Record shaped (a : mex_args) : Prop := {
  v_M_sp : 1 ≤ M_sp (Scales a);
  v_even_x : Z.Even (M_rx (Scales a));
  v_even_y : Z.Even (M_ry (Scales a));
  v_even_z : Z.Even (M_rz (Scales a));
  v_wide_x : 2 * M_sp (Scales a) ≤ M_rx (Scales a);
  v_wide_y : 2 * M_sp (Scales a) ≤ M_ry (Scales a);
  v_wide_z : 2 * M_sp (Scales a) ≤ M_rz (Scales a);
  v_M : 0 ≤ M a;
  v_knots : length (knots a) = Z.to_nat (3 * M a);
  v_domain : Forall (λ k, (0 <= k < 2 * PI)%R) (knots a);
  v_ftaur : length (ftaur a)
            = Z.to_nat (M_rx (Scales a) * M_ry (Scales a) * M_rz (Scales a));
  v_ftaui : length (ftaui a)
            = Z.to_nat (M_rx (Scales a) * M_ry (Scales a) * M_rz (Scales a));
  v_E_3x : length (E_3x a) = Z.to_nat (2 * M_sp (Scales a));
  v_E_3y : length (E_3y a) = Z.to_nat (2 * M_sp (Scales a));
  v_E_3z : length (E_3z a) = Z.to_nat (2 * M_sp (Scales a))
}.

(** The caller obligations: the above, and positive spreading widths. *)
Record valid (a : mex_args) : Prop := {
  v_shape : shaped a;
  v_taux : (0 < taux (Scales a))%R;
  v_tauy : (0 < tauy (Scales a))%R;
  v_tauz : (0 < tauz (Scales a))%R
}.

(** ** The contract in the specification's words *)

(** The periodic index adjustment of step 6 on the candidate index [c]:
    at or above the upper half extent subtract the extent, below the
    negative half extent add it, then shift by the half extent. *)
Definition periodic_index (N c : Z) : Z :=
  (if N / 2 <=? c then c - N else if c <? - (N / 2) then c + N else c)
  + N / 2.

(** The sum the contract gives for knot [i] over the samples [grid]: [m]
    the floor of [N*knot/(2*PI)], [d] the offset [knot - m*(2*PI/N)], the
    powers of the ratio for [E2], the caller's tables for [E3], the grid
    read at the adjusted indices, summed over all offset triples. *)
Definition gaussian_sum (a : mex_args) (grid : list R) (i : Z) : R :=
  let Nx := M_rx (Scales a) in
  let Ny := M_ry (Scales a) in
  let Nz := M_rz (Scales a) in
  let m1 := Int_part (IZR Nx * knot_x a i / (2 * PI))%R in
  let m2 := Int_part (IZR Ny * knot_y a i / (2 * PI))%R in
  let m3 := Int_part (IZR Nz * knot_z a i / (2 * PI))%R in
  let dx := (knot_x a i - IZR m1 * (2 * PI / IZR Nx))%R in
  let dy := (knot_y a i - IZR m2 * (2 * PI / IZR Ny))%R in
  let dz := (knot_z a i - IZR m3 * (2 * PI / IZR Nz))%R in
  let E2x l := powerRZ (E_2dummy Nx (taux (Scales a)) (subcell Nx (knot_x a i))) l in
  let E2y l := powerRZ (E_2dummy Ny (tauy (Scales a)) (subcell Ny (knot_y a i))) l in
  let E2z l := powerRZ (E_2dummy Nz (tauz (Scales a)) (subcell Nz (knot_z a i))) l in
  let E3x l := rd (E_3x a) (M_sp (Scales a) + l - 1) in
  let E3y l := rd (E_3y a) (M_sp (Scales a) + l - 1) in
  let E3z l := rd (E_3z a) (M_sp (Scales a) + l - 1) in
  Rsum ((λ l1, Rsum ((λ l2, Rsum ((λ l3,
    exp (- (dx * dx) / (4 * taux (Scales a)))
    * exp (- (dy * dy) / (4 * tauy (Scales a)))
    * exp (- (dz * dz) / (4 * tauz (Scales a)))
    * E2x l1 * E3x l1 * E2y l2 * E3y l2 * E2z l3 * E3z l3
    * rd grid (periodic_index Nx (m1 + l1)
               + Nx * periodic_index Ny (m2 + l2)
               + Nx * Ny * periodic_index Nz (m3 + l3)))%R
    <$> offsets (M_sp (Scales a))))
    <$> offsets (M_sp (Scales a))))
    <$> offsets (M_sp (Scales a))).

(** ** A sample run *)

(** The knot-independent factor of the Gaussian at offset [l]: the kernel
    [exp(-t^2/(4*tau))] at [l] lattice spacings [2*PI/N]. *)
Definition gauss_factor (N : Z) (tau : R) (l : Z) : R :=
  exp (- (IZR l * (2 * PI / IZR N)) * (IZR l * (2 * PI / IZR N)) / (4 * tau))%R.

(** The scenario of the specification: a 4x4x4 grid holding a unit impulse
    at cell (2,2,2), that is at linear index 2 + 4*2 + 16*2 = 42,
    [M_sp = 2], spreading width 1 on every axis, Gaussian kernel tables,
    and a single knot at the origin. *)
Definition sample_scales : scales :=
  {| M_sp := 2; taux := 1; tauy := 1; tauz := 1;
     M_rx := 4; M_ry := 4; M_rz := 4 |}.

Definition sample_args : mex_args :=
  {| ftaur := <[42%nat := 1%R]> (replicate 64 0%R);
     ftaui := replicate 64 0%R;
     M := 1;
     knots := [0%R; 0%R; 0%R];
     E_3x := gauss_factor 4 1 <$> offsets 2;
     E_3y := gauss_factor 4 1 <$> offsets 2;
     E_3z := gauss_factor 4 1 <$> offsets 2;
     Scales := sample_scales |}.

(** ** The grid cells one knot reads *)

(** The linear indices at which the accumulation loops of knot [i] read
    the grid, in the order of the loops ([l3] outermost, [l1] innermost). *)
Definition cells_read (a : mex_args) (i : Z) : list Z :=
  l3 ← offsets (M_sp (Scales a));
  l2 ← offsets (M_sp (Scales a));
  l1 ← offsets (M_sp (Scales a));
  [linear a
     (wrapped (M_rx (Scales a)) (nearest (M_rx (Scales a)) (knot_x a i)) l1)
     (wrapped (M_ry (Scales a)) (nearest (M_ry (Scales a)) (knot_y a i)) l2)
     (wrapped (M_rz (Scales a)) (nearest (M_rz (Scales a)) (knot_z a i)) l3)].

(** ** The ratio of the weight sequence in the specification's words *)

(** The sub-cell offset of step 2: [d = knot - m*(2*PI/N)] with
    [m = floor(N*knot/(2*PI))]. *)
Definition step2_offset (N : Z) (knot : R) : R :=
  (knot - IZR (Int_part (IZR N * knot / (2 * PI))) * (2 * PI / IZR N))%R.

(** The ratio as step 3 states it: [exp(d*2*PI/(N*tau))]. *)
Definition stated_ratio (N : Z) (tau d : R) : R :=
  exp (d * (2 * PI) / (IZR N * tau))%R.

(** The ratio with [PI] in place of [2*PI]: [exp(d*PI/(N*tau))]. *)
Definition halved_ratio (N : Z) (tau d : R) : R :=
  exp (d * PI / (IZR N * tau))%R.

(** The sample run with its knot moved off the lattice, to (1, 1, 1). *)
Definition offgrid_args : mex_args :=
  {| ftaur := ftaur sample_args; ftaui := ftaui sample_args;
     M := 1;
     knots := [1%R; 1%R; 1%R];
     E_3x := E_3x sample_args; E_3y := E_3y sample_args;
     E_3z := E_3z sample_args;
     Scales := sample_scales |}.

(** A state whose scratch buffers hold four cells, the central one seeded. *)
Definition seeded_sample : state :=
  {| outArrayR := [0%R]; outArrayI := [0%R];
     E_2x := [7%R; 1%R; 7%R; 7%R];
     E_2y := [7%R; 1%R; 7%R; 7%R];
     E_2z := [7%R; 1%R; 7%R; 7%R] |}.

(** ** Runs that differ in the grid only *)

(** The arguments [a] with the grid samples replaced by [fr] and [fi]. *)
Definition with_grid (a : mex_args) (fr fi : list R) : mex_args :=
  {| ftaur := fr; ftaui := fi;
     M := M a; knots := knots a;
     E_3x := E_3x a; E_3y := E_3y a; E_3z := E_3z a;
     Scales := Scales a |}.

(** ** Runs that differ in the knots only *)

(** Two runs over the same grid, kernel tables and parameters. *)
Definition same_setup (a b : mex_args) : Prop :=
  ftaur a = ftaur b ∧ ftaui a = ftaui b ∧
  E_3x a = E_3x b ∧ E_3y a = E_3y b ∧ E_3z a = E_3z b ∧
  Scales a = Scales b.

(** Knot [i] of run [a] and knot [j] of run [b] are at the same place. *)
Definition same_knot (a b : mex_args) (i j : Z) : Prop :=
  knot_x a i = knot_x b j ∧ knot_y a i = knot_y b j ∧ knot_z a i = knot_z b j.

(** The sample run with two knots, the origin and (1,1,1), and the same
    run with the two knots exchanged. *)
Definition pair_args : mex_args :=
  {| ftaur := ftaur sample_args; ftaui := ftaui sample_args;
     M := 2;
     knots := [0%R; 1%R; 0%R; 1%R; 0%R; 1%R];
     E_3x := E_3x sample_args; E_3y := E_3y sample_args;
     E_3z := E_3z sample_args;
     Scales := sample_scales |}.

Definition swapped_args : mex_args :=
  {| ftaur := ftaur sample_args; ftaui := ftaui sample_args;
     M := 2;
     knots := [1%R; 0%R; 1%R; 0%R; 1%R; 0%R];
     E_3x := E_3x sample_args; E_3y := E_3y sample_args;
     E_3z := E_3z sample_args;
     Scales := sample_scales |}.

(** ** Impulse grids *)

(** The angular coordinate of the lattice point that step 6 maps onto
    cell [c] of an axis of extent [N]: the convention puts coordinate 0
    at the half extent, so cell [c] is lattice point [(c + N/2) mod N]. *)
Definition cell_coordinate (N c : Z) : R :=
  (IZR ((c + N / 2) mod N) * (2 * PI / IZR N))%R.

(** The Gaussian kernel of width [tau]. *)
Definition gauss (tau t : R) : R := exp (- (t * t) / (4 * tau))%R.

(** The signed distance from the lattice point [l] cells after the nearest
    one to the knot. *)
Definition axis_distance (N : Z) (knot : R) (l : Z) : R :=
  (knot - IZR (nearest N knot + l) * (2 * PI / IZR N))%R.

(** The Gaussian envelope of knot [i] at the offsets [(l1,l2,l3)]. *)
Definition envelope (a : mex_args) (i l1 l2 l3 : Z) : R :=
  (gauss (taux (Scales a)) (axis_distance (M_rx (Scales a)) (knot_x a i) l1)
   * gauss (tauy (Scales a)) (axis_distance (M_ry (Scales a)) (knot_y a i) l2)
   * gauss (tauz (Scales a)) (axis_distance (M_rz (Scales a)) (knot_z a i) l3))%R.

(** Modelled from the spec: the contents of the three kernel tables, which
    the caller precomputes.  The entry for offset [l] is the
    knot-independent factor of the Gaussian at [l] lattice spacings, the
    factor that completes the identity of step 3. *)
Definition gaussian_tables (a : mex_args) : Prop :=
  ∀ l, 1 - M_sp (Scales a) ≤ l ≤ M_sp (Scales a) →
    rd (E_3x a) (M_sp (Scales a) + l - 1)
    = gauss_factor (M_rx (Scales a)) (taux (Scales a)) l ∧
    rd (E_3y a) (M_sp (Scales a) + l - 1)
    = gauss_factor (M_ry (Scales a)) (tauy (Scales a)) l ∧
    rd (E_3z a) (M_sp (Scales a) + l - 1)
    = gauss_factor (M_rz (Scales a)) (tauz (Scales a)) l.

(** The cell of knot [i] at the offsets [(l1,l2,l3)] is [(cx,cy,cz)]. *)
Definition reaches (a : mex_args) (i l1 l2 l3 cx cy cz : Z) : Prop :=
  (1 - M_sp (Scales a) ≤ l1 ≤ M_sp (Scales a) ∧
   wrapped (M_rx (Scales a)) (nearest (M_rx (Scales a)) (knot_x a i)) l1 = cx) ∧
  (1 - M_sp (Scales a) ≤ l2 ≤ M_sp (Scales a) ∧
   wrapped (M_ry (Scales a)) (nearest (M_ry (Scales a)) (knot_y a i)) l2 = cy) ∧
  (1 - M_sp (Scales a) ≤ l3 ≤ M_sp (Scales a) ∧
   wrapped (M_rz (Scales a)) (nearest (M_rz (Scales a)) (knot_z a i)) l3 = cz).

(** On some axis no offset of the window of knot [i] reaches the cell. *)
Definition out_of_window (a : mex_args) (i cx cy cz : Z) : Prop :=
  (∀ l, 1 - M_sp (Scales a) ≤ l ≤ M_sp (Scales a) →
     wrapped (M_rx (Scales a)) (nearest (M_rx (Scales a)) (knot_x a i)) l ≠ cx) ∨
  (∀ l, 1 - M_sp (Scales a) ≤ l ≤ M_sp (Scales a) →
     wrapped (M_ry (Scales a)) (nearest (M_ry (Scales a)) (knot_y a i)) l ≠ cy) ∨
  (∀ l, 1 - M_sp (Scales a) ≤ l ≤ M_sp (Scales a) →
     wrapped (M_rz (Scales a)) (nearest (M_rz (Scales a)) (knot_z a i)) l ≠ cz).

(** A run with a narrow window: [M_sp = 1] on the 4x4x4 sample grid, and
    three knots, at the origin, at (1,1,1) and at the lattice point 2 of
    every axis. *)
Definition narrow_scales : scales :=
  {| M_sp := 1; taux := 1; tauy := 1; tauz := 1;
     M_rx := 4; M_ry := 4; M_rz := 4 |}.

Definition narrow_args : mex_args :=
  {| ftaur := ftaur sample_args; ftaui := ftaui sample_args;
     M := 3;
     knots := [0%R; 1%R; (IZR 2 * (2 * PI / IZR 4))%R;
               0%R; 1%R; (IZR 2 * (2 * PI / IZR 4))%R;
               0%R; 1%R; (IZR 2 * (2 * PI / IZR 4))%R];
     E_3x := gauss_factor 4 1 <$> offsets 1;
     E_3y := gauss_factor 4 1 <$> offsets 1;
     E_3z := gauss_factor 4 1 <$> offsets 1;
     Scales := narrow_scales |}.

(** ** Runs with knots on the negative side *)

(** A coordinate of [[-2*PI, 0)] moved one period up, into [[0, 2*PI)]. *)
Definition fold_knot (k : R) : R :=
  if Rlt_dec k 0 then (k + 2 * PI)%R else k.

(** The arguments [a] with the knot coordinates replaced by [ks]. *)
Definition with_knots (a : mex_args) (ks : list R) : mex_args :=
  {| ftaur := ftaur a; ftaui := ftaui a;
     M := M a; knots := ks;
     E_3x := E_3x a; E_3y := E_3y a; E_3z := E_3z a;
     Scales := Scales a |}.

(** The sample run with its knot at (-1, -1, -1). *)
Definition negative_args : mex_args :=
  with_knots sample_args [(-1)%R; (-1)%R; (-1)%R].

(** ** Grids that are products of axis profiles *)

(** The one-dimensional weighted sum of one axis for a knot coordinate:
    the central factor times the sum, over the window, of the power of
    the ratio, the table entry and the profile at the wrapped index. *)
Definition axis_sum (N M_sp : Z) (tau : R) (table profile : list R)
    (knot : R) : R :=
  (E_1 tau (subcell N knot)
   * Rsum ((λ l, powerRZ (E_2dummy N tau (subcell N knot)) l
                 * rd table (M_sp + l - 1)
                 * rd profile (wrapped N (nearest N knot) l))
           <$> offsets M_sp))%R.

(** The samples [grid] are the product of the profiles [fx], [fy], [fz]. *)
Definition product_grid (a : mex_args) (grid fx fy fz : list R) : Prop :=
  ∀ x y z, 0 ≤ x < M_rx (Scales a) → 0 ≤ y < M_ry (Scales a) →
    0 ≤ z < M_rz (Scales a) →
    rd grid (linear a x y z) = (rd fx x * rd fy y * rd fz z)%R.

(** * Properties *)

(** ** Arrays *)

Lemma load_lookup (a : list R) (i : Z) :
  0 ≤ i → load a i = a !! Z.to_nat i.
Proof. intros Hi. unfold load. by rewrite decide_True. Qed.

Lemma load_nat (a : list R) (n : nat) : load a (Z.of_nat n) = a !! n.
Proof. rewrite load_lookup by lia. by rewrite Nat2Z.id. Qed.

Lemma load_Some_range (a : list R) (i : Z) (v : R) :
  load a i = Some v → 0 ≤ i < Z.of_nat (length a).
Proof.
  unfold load. case_decide; [|done].
  intros Hl%lookup_lt_Some. lia.
Qed.

Lemma load_in_range (a : list R) (i : Z) :
  0 ≤ i < Z.of_nat (length a) → is_Some (load a i).
Proof.
  intros Hi. rewrite load_lookup by lia. apply lookup_lt_is_Some. lia.
Qed.

Lemma store_in_range (a : list R) (i : Z) (v : R) :
  0 ≤ i < Z.of_nat (length a) → store a i v = Some (<[Z.to_nat i := v]> a).
Proof. intros Hi. unfold store. by rewrite decide_True. Qed.

Lemma store_Some (a b : list R) (i : Z) (v : R) :
  store a i v = Some b →
  0 ≤ i < Z.of_nat (length a) ∧ b = <[Z.to_nat i := v]> a.
Proof. unfold store. case_decide; [|done]. by intros [= <-]. Qed.

Lemma load_store_eq (a b : list R) (i : Z) (v : R) :
  store a i v = Some b → load b i = Some v.
Proof.
  intros [Hi ->]%store_Some. rewrite load_lookup by lia.
  apply list_lookup_insert_eq. lia.
Qed.

Lemma load_store_ne (a b : list R) (i k : Z) (v : R) :
  store a i v = Some b → k ≠ i → load b k = load a k.
Proof.
  intros [Hi ->]%store_Some Hne. unfold load. case_decide; [|done].
  apply list_lookup_insert_ne. lia.
Qed.

Lemma length_store (a b : list R) (i : Z) (v : R) :
  store a i v = Some b → length b = length a.
Proof. intros [_ ->]%store_Some. apply length_insert. Qed.

(** Two arrays with the same cells are the same array. *)
Lemma load_ext (a b : list R) :
  (∀ k, 0 ≤ k → load a k = load b k) → a = b.
Proof.
  intros H. apply list_eq. intros n.
  specialize (H (Z.of_nat n)). rewrite !load_nat in H. apply H. lia.
Qed.

(** ** Loops *)

Lemma iterate_S {S : Type} (step : Z) (n : nat) (j : Z)
    (body : Z → S → option S) (s : S) :
  iterate step (Datatypes.S n) j body s =
  (s' ← body j s; iterate step n (j + step) body s').
Proof. reflexivity. Qed.

Lemma iterate_snoc {S : Type} (step : Z) (n : nat) (j : Z)
    (body : Z → S → option S) (s : S) :
  iterate step (Datatypes.S n) j body s =
  (s' ← iterate step n j body s; body (j + Z.of_nat n * step) s').
Proof.
  revert j s. induction n as [|n IH]; intros j s.
  - simpl. replace (j + Z.of_nat 0 * step) with j by lia.
    by destruct (body j s).
  - rewrite (iterate_S step (Datatypes.S n)), (iterate_S step n j).
    destruct (body j s) as [s1|]; cbn -[iterate]; [|done].
    rewrite IH.
    replace (j + step + Z.of_nat n * step)
      with (j + Z.of_nat (Datatypes.S n) * step) by lia.
    done.
Qed.

(** A loop whose iterations keep an invariant and succeed under it
    succeeds and ends in the invariant. *)
Lemma iterate_invariant {S : Type} (I : nat → S → Prop) (step : Z) (n : nat)
    (j : Z) (body : Z → S → option S) (s : S) :
  I O s →
  (∀ k s', (k < n)%nat → I k s' →
     ∃ s'', body (j + Z.of_nat k * step) s' = Some s'' ∧ I (Datatypes.S k) s'') →
  ∃ s', iterate step n j body s = Some s' ∧ I n s'.
Proof.
  intros H0 Hstep. induction n as [|n IH].
  - by exists s.
  - destruct IH as (s' & Hs' & HI); [intros; apply Hstep; [lia|done]|].
    destruct (Hstep n s') as (s'' & Hb & HI'); [lia|done|].
    exists s''. split; [|done]. rewrite iterate_snoc, Hs'. done.
Qed.

Lemma on_E_2_eq (fx fy fz : Z → list R → option (list R)) (j : Z) (s : state) :
  on_E_2 fx fy fz j s =
  (bx ← fx j (E_2x s); by_ ← fy j (E_2y s); bz ← fz j (E_2z s);
   Some (set_E_2 bx by_ bz s)).
Proof. reflexivity. Qed.

(** A loop over the three scratch buffers is three loops, one per buffer. *)
Lemma iterate_on_E_2 (fx fy fz : Z → list R → option (list R))
    (step : Z) (n : nat) (j : Z) (s : state) :
  iterate step n j (on_E_2 fx fy fz) s =
  (bx ← iterate step n j fx (E_2x s);
   by_ ← iterate step n j fy (E_2y s);
   bz ← iterate step n j fz (E_2z s);
   Some (set_E_2 bx by_ bz s)).
Proof.
  revert j s. induction n as [|n IH]; intros j s.
  - by destruct s.
  - rewrite !iterate_S, on_E_2_eq.
    destruct (fx j (E_2x s)) as [bx|]; cbn -[iterate]; [|done].
    destruct (fy j (E_2y s)) as [by_|]; cbn -[iterate].
    2:{ by destruct (iterate step n (j + step) fx bx). }
    destruct (fz j (E_2z s)) as [bz|]; cbn -[iterate].
    2:{ destruct (iterate step n (j + step) fx bx); cbn -[iterate]; [|done].
        by destruct (iterate step n (j + step) fy by_). }
    rewrite IH. done.
Qed.

(** ** The recurrences on one scratch buffer *)



Lemma length_weight_seq (M_sp : Z) (rho : R) :
  length (weight_seq M_sp rho) = Z.to_nat (2 * M_sp).
Proof. unfold weight_seq. by rewrite length_fmap, length_seqZ. Qed.

Lemma load_weight_seq (M_sp : Z) (rho : R) (j : Z) :
  0 ≤ j < 2 * M_sp →
  load (weight_seq M_sp rho) j = Some (powerRZ rho (j - M_sp + 1)).
Proof.
  intros Hj. rewrite load_lookup by lia. unfold weight_seq.
  rewrite list_lookup_fmap, lookup_seqZ_lt by lia. simpl.
  do 2 f_equal. lia.
Qed.

(** [n] forward steps from slot [j]: the slots [j .. j+n-1] receive the
    value of slot [j-1] times [d], [d^2], ...; nothing else is written. *)
Lemma recur_fwd_loop (d : R) (n : nat) (j : Z) (buf : list R) (v : R) :
  1 ≤ j → j + Z.of_nat n ≤ Z.of_nat (length buf) →
  load buf (j - 1) = Some v →
  ∃ buf', iterate 1 n j (recur_fwd d) buf = Some buf' ∧
    length buf' = length buf ∧
    (∀ k, ¬ (j ≤ k < j + Z.of_nat n) → load buf' k = load buf k) ∧
    (∀ k, j ≤ k < j + Z.of_nat n →
       load buf' k = Some (pow d (Z.to_nat (k - j + 1)) * v)%R).
Proof.
  intros Hj Hlen Hv.
  apply (iterate_invariant (λ c b,
    length b = length buf ∧
    (∀ k, ¬ (j ≤ k < j + Z.of_nat c) → load b k = load buf k) ∧
    (∀ k, j ≤ k < j + Z.of_nat c →
       load b k = Some (pow d (Z.to_nat (k - j + 1)) * v)%R))).
  { split_and!; [done|done|]. intros k Hk. lia. }
  intros c b Hc (Hl & Hframe & Hfill).
  assert (Hprev : load b (j + Z.of_nat c * 1 - 1)
                  = Some (pow d c * v)%R).
  { destruct c as [|c].
    - rewrite Hframe by lia.
      replace (j + Z.of_nat 0 * 1 - 1) with (j - 1) by lia.
      rewrite Hv. f_equal. simpl. lra.
    - rewrite Hfill by lia. do 3 f_equal. lia. }
  unfold recur_fwd. rewrite Hprev. simpl.
  destruct (store b (j + Z.of_nat c * 1) (d * (pow d c * v))%R)
    as [b'|] eqn:Hst.
  2:{ rewrite store_in_range in Hst by lia. done. }
  exists b'. split; [done|]. split_and!.
  - by rewrite (length_store _ _ _ _ Hst).
  - intros k Hk. rewrite (load_store_ne _ _ _ _ _ Hst) by lia.
    apply Hframe. lia.
  - intros k Hk. destruct (decide (k = j + Z.of_nat c * 1)) as [->|Hne].
    + rewrite (load_store_eq _ _ _ _ Hst). f_equal.
      replace (Z.to_nat (j + Z.of_nat c * 1 - j + 1)) with (Datatypes.S c) by lia.
      simpl. lra.
    + rewrite (load_store_ne _ _ _ _ _ Hst) by done. apply Hfill. lia.
Qed.

(** [n] backward steps from slot [j]: the slots [j-n+1 .. j] receive the
    value of slot [j+1] times [di], [di^2], ...; nothing else is written. *)
Lemma recur_bwd_loop (di : R) (n : nat) (j : Z) (buf : list R) (v : R) :
  0 ≤ j + 1 - Z.of_nat n → j + 1 < Z.of_nat (length buf) →
  load buf (j + 1) = Some v →
  ∃ buf', iterate (-1) n j (recur_bwd di) buf = Some buf' ∧
    length buf' = length buf ∧
    (∀ k, ¬ (j - Z.of_nat n < k ≤ j) → load buf' k = load buf k) ∧
    (∀ k, j - Z.of_nat n < k ≤ j →
       load buf' k = Some (v * pow di (Z.to_nat (j - k + 1)))%R).
Proof.
  intros Hj Hlen Hv.
  apply (iterate_invariant (λ c b,
    length b = length buf ∧
    (∀ k, ¬ (j - Z.of_nat c < k ≤ j) → load b k = load buf k) ∧
    (∀ k, j - Z.of_nat c < k ≤ j →
       load b k = Some (v * pow di (Z.to_nat (j - k + 1)))%R))).
  { split_and!; [done|done|]. intros k Hk. lia. }
  intros c b Hc (Hl & Hframe & Hfill).
  assert (Hnext : load b (j + Z.of_nat c * -1 + 1)
                  = Some (v * pow di c)%R).
  { destruct c as [|c].
    - rewrite Hframe by lia.
      replace (j + Z.of_nat 0 * -1 + 1) with (j + 1) by lia.
      rewrite Hv. f_equal. simpl. lra.
    - rewrite Hfill by lia. do 3 f_equal. lia. }
  unfold recur_bwd. rewrite Hnext. simpl.
  destruct (store b (j + Z.of_nat c * -1) (v * pow di c * di)%R)
    as [b'|] eqn:Hst.
  2:{ rewrite store_in_range in Hst by lia. done. }
  exists b'. split; [done|]. split_and!.
  - by rewrite (length_store _ _ _ _ Hst).
  - intros k Hk. rewrite (load_store_ne _ _ _ _ _ Hst) by lia.
    apply Hframe. lia.
  - intros k Hk. destruct (decide (k = j + Z.of_nat c * -1)) as [->|Hne].
    + rewrite (load_store_eq _ _ _ _ Hst). f_equal.
      replace (Z.to_nat (j - (j + Z.of_nat c * -1) + 1))
        with (Datatypes.S c) by lia.
      simpl. lra.
    + rewrite (load_store_ne _ _ _ _ _ Hst) by done. apply Hfill. lia.
Qed.

Lemma pow_inv_powerRZ (d : R) (n : nat) :
  pow (1 / d) n = powerRZ d (- Z.of_nat n).
Proof.
  rewrite powerRZ_neg', <- pow_powerRZ, <- pow_inv.
  f_equal. unfold Rdiv. apply Rmult_1_l.
Qed.

(** Both recurrences on one buffer whose central slot holds 1: the buffer
    becomes the sequence of powers. *)
Lemma recur_loops_weight_seq (M_sp : Z) (d : R) (buf : list R) :
  1 ≤ M_sp → length buf = Z.to_nat (2 * M_sp) →
  load buf (M_sp - 1) = Some 1%R →
  (b1 ← iterate 1 (Z.to_nat (2 * M_sp - M_sp)) M_sp (recur_fwd d) buf;
   iterate (-1) (Z.to_nat (M_sp - 2 + 1 - 0)) (M_sp - 2) (recur_bwd (1 / d)) b1)
  = Some (weight_seq M_sp d).
Proof.
  intros HM Hlen Hseed.
  destruct (recur_fwd_loop d (Z.to_nat (2 * M_sp - M_sp)) M_sp buf 1%R)
    as (b1 & -> & Hl1 & Hframe1 & Hfill1); [lia|lia|done|].
  simpl.
  destruct (recur_bwd_loop (1 / d) (Z.to_nat (M_sp - 2 + 1 - 0)) (M_sp - 2) b1 1%R)
    as (b2 & -> & Hl2 & Hframe2 & Hfill2); [lia|lia| |].
  { replace (M_sp - 2 + 1) with (M_sp - 1) by lia.
    rewrite Hframe1 by lia. done. }
  f_equal. apply load_ext. intros k Hk.
  destruct (decide (k < 2 * M_sp)) as [Hin|Hout].
  2:{ unfold load. rewrite !decide_True by done.
      rewrite !(lookup_ge_None_2 _ (Z.to_nat k)); [done| |].
      - rewrite length_weight_seq. lia.
      - rewrite Hl2, Hl1, Hlen. lia. }
  rewrite load_weight_seq by lia.
  destruct (decide (k ≤ M_sp - 2)) as [Hlow|Hhigh].
  - rewrite Hfill2 by lia. f_equal.
    rewrite pow_inv_powerRZ, Rmult_1_l. f_equal. lia.
  - rewrite Hframe2 by lia.
    destruct (decide (k = M_sp - 1)) as [->|Hne].
    + rewrite Hframe1 by lia. rewrite Hseed.
      replace (M_sp - 1 - M_sp + 1) with 0 by lia. done.
    + rewrite Hfill1 by lia. f_equal.
      rewrite pow_powerRZ, Rmult_1_r. f_equal. lia.
Qed.

(** The two recurrence loops of one knot, on a state whose three central
    slots hold 1. *)
Lemma fill_E_2_weight_seq (M_sp : Z) (dx dy dz : R) (s : state) :
  1 ≤ M_sp →
  length (E_2x s) = Z.to_nat (2 * M_sp) →
  length (E_2y s) = Z.to_nat (2 * M_sp) →
  length (E_2z s) = Z.to_nat (2 * M_sp) →
  load (E_2x s) (M_sp - 1) = Some 1%R →
  load (E_2y s) (M_sp - 1) = Some 1%R →
  load (E_2z s) (M_sp - 1) = Some 1%R →
  fill_E_2 M_sp dx dy dz s =
  Some (set_E_2 (weight_seq M_sp dx) (weight_seq M_sp dy) (weight_seq M_sp dz) s).
Proof.
  intros HM Hlx Hly Hlz Hx Hy Hz.
  pose proof (recur_loops_weight_seq M_sp dx _ HM Hlx Hx) as Ex.
  pose proof (recur_loops_weight_seq M_sp dy _ HM Hly Hy) as Ey.
  pose proof (recur_loops_weight_seq M_sp dz _ HM Hlz Hz) as Ez.
  unfold fill_E_2, for_below, for_downto. rewrite iterate_on_E_2.
  destruct (iterate 1 _ M_sp (recur_fwd dx) (E_2x s)) as [bx|]; [|done].
  destruct (iterate 1 _ M_sp (recur_fwd dy) (E_2y s)) as [by_|]; [|done].
  destruct (iterate 1 _ M_sp (recur_fwd dz) (E_2z s)) as [bz|]; [|done].
  cbn -[iterate Z.to_nat Z.sub Z.add Z.mul] in *.
  rewrite iterate_on_E_2. cbn -[iterate Z.to_nat Z.sub Z.add Z.mul].
  rewrite Ex, Ey, Ez. done.
Qed.

(** ** Sums and accumulation *)


Lemma load_rd (a : list R) (i : Z) :
  0 ≤ i < Z.of_nat (length a) → load a i = Some (rd a i).
Proof.
  intros Hi. unfold rd. by destruct (load_in_range a i Hi) as [v ->].
Qed.

Lemma store_add (l : list R) (i : Z) (x v : R) :
  load l i = Some x →
  store l i (x + v)%R = Some (alter (λ y, y + v)%R (Z.to_nat i) l).
Proof.
  intros Hx. pose proof (load_Some_range _ _ _ Hx) as Hi.
  rewrite store_in_range by done. f_equal.
  rewrite load_lookup in Hx by lia.
  apply list_eq. intros k. destruct (decide (k = Z.to_nat i)) as [->|Hne].
  - rewrite list_lookup_insert_eq, list_lookup_alter_eq by lia. by rewrite Hx.
  - by rewrite list_lookup_insert_ne, list_lookup_alter_ne.
Qed.

Lemma bump_bump (i : Z) (vR vI wR wI : R) (s : state) :
  bump i wR wI (bump i vR vI s) = bump i (vR + wR) (vI + wI) s.
Proof.
  unfold bump, set_out. simpl. rewrite !list_alter_alter_eq.
  f_equal; apply list_alter_ext; try done; intros x _; simpl; lra.
Qed.

Lemma bump_0 (i : Z) (s : state) : bump i 0 0 s = s.
Proof.
  destruct s. unfold bump, set_out. simpl.
  f_equal; apply list_alter_id; intros x; lra.
Qed.

Lemma Rsum_seqZ_S (f : Z → R) (j : Z) (n : nat) :
  Rsum (f <$> seqZ j (Z.of_nat (Datatypes.S n)))
  = (f j + Rsum (f <$> seqZ (j + 1) (Z.of_nat n)))%R.
Proof.
  rewrite seqZ_cons by lia.
  replace (Z.pred (Z.of_nat (Datatypes.S n))) with (Z.of_nat n) by lia.
  replace (Z.succ j) with (j + 1) by lia. reflexivity.
Qed.

(** A loop each of whose iterations adds to the two accumulators of knot
    [i] adds the two sums. *)
Lemma iterate_bump (P : state → Prop) (i : Z) (body : Z → state → option state)
    (fR fI : Z → R) (n : nat) (j : Z) (s : state) :
  (∀ vR vI s', P s' → P (bump i vR vI s')) →
  (∀ k s', j ≤ k < j + Z.of_nat n → P s' →
     body k s' = Some (bump i (fR k) (fI k) s')) →
  P s →
  iterate 1 n j body s
  = Some (bump i (Rsum (fR <$> seqZ j (Z.of_nat n)))
                 (Rsum (fI <$> seqZ j (Z.of_nat n))) s).
Proof.
  intros Hbump. revert j s. induction n as [|n IH]; intros j s Hbody Hs.
  - simpl. by rewrite bump_0.
  - rewrite iterate_S, Hbody by (done || lia). cbn -[iterate Z.of_nat].
    rewrite IH; [|intros; apply Hbody; (done || lia)|by apply Hbump].
    by rewrite bump_bump, !Rsum_seqZ_S.
Qed.

(** The same for a loop over the truncation window. *)
Lemma for_upto_bump (P : state → Prop) (i : Z) (body : Z → state → option state)
    (fR fI : Z → R) (M_sp : Z) (s : state) :
  1 ≤ M_sp →
  (∀ vR vI s', P s' → P (bump i vR vI s')) →
  (∀ l s', 1 - M_sp ≤ l ≤ M_sp → P s' →
     body l s' = Some (bump i (fR l) (fI l) s')) →
  P s →
  for_upto (1 - M_sp) M_sp body s
  = Some (bump i (Rsum (fR <$> offsets M_sp)) (Rsum (fI <$> offsets M_sp)) s).
Proof.
  intros HM Hbump Hbody Hs. unfold for_upto, offsets.
  rewrite (iterate_bump P i body fR fI); [|done| |done].
  - by replace (Z.of_nat (Z.to_nat (M_sp + 1 - (1 - M_sp))))
      with (2 * M_sp) by lia.
  - intros l s' Hl. apply Hbody. lia.
Qed.

Section Accumulate.
Context (a : mex_args) (i : Z) (bx by_ bz : list R).

#[local] Abbreviation p := (Scales a).

Lemma accumulating_bump (vR vI : R) (s : state) :
  accumulating i bx by_ bz s →
  accumulating i bx by_ bz (bump i vR vI s).
Proof.
  intros (? & ? & ? & ? & ?). unfold accumulating, bump. simpl.
  rewrite !length_alter. done.
Qed.

Context (m1 m2 m3 : Z).
Hypothesis HM_sp : 1 ≤ M_sp p.
Hypothesis Hbx : 2 * M_sp p ≤ Z.of_nat (length bx).
Hypothesis Hby : 2 * M_sp p ≤ Z.of_nat (length by_).
Hypothesis Hbz : 2 * M_sp p ≤ Z.of_nat (length bz).
Hypothesis HE_3x : 2 * M_sp p ≤ Z.of_nat (length (E_3x a)).
Hypothesis HE_3y : 2 * M_sp p ≤ Z.of_nat (length (E_3y a)).
Hypothesis HE_3z : 2 * M_sp p ≤ Z.of_nat (length (E_3z a)).
Hypothesis Hcells : ∀ l1 l2 l3,
  1 - M_sp p ≤ l1 ≤ M_sp p → 1 - M_sp p ≤ l2 ≤ M_sp p →
  1 - M_sp p ≤ l3 ≤ M_sp p →
  0 ≤ linear a (wrapped (M_rx p) m1 l1) (wrapped (M_ry p) m2 l2)
             (wrapped (M_rz p) m3 l3)
    < Z.of_nat (Nat.min (length (ftaur a)) (length (ftaui a))).

Lemma conv_x_add (V1r : R) (l2 l3 l1 : Z) (s : state) :
  1 - M_sp p ≤ l1 ≤ M_sp p → 1 - M_sp p ≤ l2 ≤ M_sp p →
  1 - M_sp p ≤ l3 ≤ M_sp p → accumulating i bx by_ bz s →
  conv_x a i m1 (wrapped (M_ry p) m2 l2) (wrapped (M_rz p) m3 l3) V1r l1 s
  = Some (bump i
      (V1r * (rd bx (M_sp p + l1 - 1) * rd (E_3x a) (M_sp p + l1 - 1))
       * rd (ftaur a) (linear a (wrapped (M_rx p) m1 l1)
            (wrapped (M_ry p) m2 l2) (wrapped (M_rz p) m3 l3)))
      (V1r * (rd bx (M_sp p + l1 - 1) * rd (E_3x a) (M_sp p + l1 - 1))
       * rd (ftaui a) (linear a (wrapped (M_rx p) m1 l1)
            (wrapped (M_ry p) m2 l2) (wrapped (M_rz p) m3 l3))) s).
Proof using All.
  intros H1 H2 H3 (Ex & Ey & Ez & HoR & HoI).
  pose proof (Hcells l1 l2 l3 H1 H2 H3) as Hc.
  unfold conv_x. fold (linear a (wrapped (M_rx p) m1 l1)
    (wrapped (M_ry p) m2 l2) (wrapped (M_rz p) m3 l3)).
  rewrite Ex, (load_rd bx), (load_rd (E_3x a)), (load_rd (ftaur a)),
    (load_rd (ftaui a)) by lia.
  cbn -[Z.add Z.mul Z.sub wrapped].
  destruct (load_in_range (outArrayR s) i HoR) as [accR HaccR].
  destruct (load_in_range (outArrayI s) i HoI) as [accI HaccI].
  rewrite HaccR. cbn -[Z.add Z.mul Z.sub wrapped].
  rewrite (store_add _ _ _ _ HaccR). cbn -[Z.add Z.mul Z.sub wrapped].
  rewrite HaccI. cbn -[Z.add Z.mul Z.sub wrapped].
  rewrite (store_add _ _ _ _ HaccI). done.
Qed.

Lemma conv_y_add (V2r : R) (l3 l2 : Z) (s : state) :
  1 - M_sp p ≤ l2 ≤ M_sp p → 1 - M_sp p ≤ l3 ≤ M_sp p →
  accumulating i bx by_ bz s →
  conv_y a i m1 m2 (wrapped (M_rz p) m3 l3) V2r l2 s
  = Some (bump i
      (Rsum ((λ l1,
         V2r * (rd by_ (M_sp p + l2 - 1) * rd (E_3y a) (M_sp p + l2 - 1))
         * (rd bx (M_sp p + l1 - 1) * rd (E_3x a) (M_sp p + l1 - 1))
         * rd (ftaur a) (linear a (wrapped (M_rx p) m1 l1)
              (wrapped (M_ry p) m2 l2) (wrapped (M_rz p) m3 l3)))%R
         <$> offsets (M_sp p)))
      (Rsum ((λ l1,
         V2r * (rd by_ (M_sp p + l2 - 1) * rd (E_3y a) (M_sp p + l2 - 1))
         * (rd bx (M_sp p + l1 - 1) * rd (E_3x a) (M_sp p + l1 - 1))
         * rd (ftaui a) (linear a (wrapped (M_rx p) m1 l1)
              (wrapped (M_ry p) m2 l2) (wrapped (M_rz p) m3 l3)))%R
         <$> offsets (M_sp p))) s).
Proof using All.
  intros H2 H3 Hs. pose proof Hs as (Ex & Ey & Ez & HoR & HoI).
  unfold conv_y.
  rewrite Ey, (load_rd by_), (load_rd (E_3y a)) by lia.
  cbn -[Z.add Z.mul Z.sub wrapped for_upto].
  apply (for_upto_bump (accumulating i bx by_ bz));
    [done|apply accumulating_bump| |done].
  intros l1 s' H1 Hs'. by apply conv_x_add.
Qed.

Lemma conv_z_add (V0r : R) (l3 : Z) (s : state) :
  1 - M_sp p ≤ l3 ≤ M_sp p → accumulating i bx by_ bz s →
  conv_z a i m1 m2 m3 V0r l3 s
  = Some (bump i
      (Rsum ((λ l2, Rsum ((λ l1, term a bx by_ bz (ftaur a) V0r m1 m2 m3 l1 l2 l3)
         <$> offsets (M_sp p))) <$> offsets (M_sp p)))
      (Rsum ((λ l2, Rsum ((λ l1, term a bx by_ bz (ftaui a) V0r m1 m2 m3 l1 l2 l3)
         <$> offsets (M_sp p))) <$> offsets (M_sp p))) s).
Proof using All.
  intros H3 Hs. pose proof Hs as (Ex & Ey & Ez & HoR & HoI).
  unfold conv_z.
  rewrite Ez, (load_rd bz), (load_rd (E_3z a)) by lia.
  cbn -[Z.add Z.mul Z.sub wrapped for_upto].
  apply (for_upto_bump (accumulating i bx by_ bz));
    [done|apply accumulating_bump| |done].
  intros l2 s' H2 Hs'. by apply conv_y_add.
Qed.

(** The three nested loops add the triple sum to the accumulators. *)
Lemma conv_loops (V0r : R) (s : state) :
  accumulating i bx by_ bz s →
  for_upto (1 - M_sp p) (M_sp p) (conv_z a i m1 m2 m3 V0r) s
  = Some (bump i (triple_sum a bx by_ bz (ftaur a) V0r m1 m2 m3)
                 (triple_sum a bx by_ bz (ftaui a) V0r m1 m2 m3) s).
Proof using All.
  intros Hs.
  apply (for_upto_bump (accumulating i bx by_ bz));
    [done|apply accumulating_bump| |done].
  intros l3 s' H3 Hs'. by apply conv_z_add.
Qed.

End Accumulate.
(** ** The output in closed form *)

Section Closed.
Context (a : mex_args).

#[local] Abbreviation p := (Scales a).

Lemma load_weight_seq_centre (rho : R) :
  1 ≤ M_sp p → load (weight_seq (M_sp p) rho) (M_sp p - 1) = Some 1%R.
Proof.
  intros HM. rewrite load_weight_seq by lia.
  by replace (M_sp p - 1 - M_sp p + 1) with 0 by lia.
Qed.

Lemma seeded_scratch_of (i : Z) (s : state) :
  1 ≤ M_sp p → seeded a (scratch_of a i s).
Proof.
  intros HM. unfold seeded, scratch_of. simpl.
  rewrite !length_weight_seq, !load_weight_seq_centre by done. done.
Qed.

Lemma seeded_bump (i : Z) (vR vI : R) (s : state) :
  seeded a s → seeded a (bump i vR vI s).
Proof. done. Qed.

(** One iteration of the loop over the knots. *)
Lemma knot_body_value (i : Z) (s : state) :
  in_bounds a → 0 ≤ i < M a → seeded a s →
  i < Z.of_nat (length (outArrayR s)) →
  i < Z.of_nat (length (outArrayI s)) →
  knot_body a i s
  = Some (bump i (knot_value a (ftaur a) i) (knot_value a (ftaui a) i)
            (scratch_of a i s)).
Proof.
  intros Hib Hi (Hlx & Hly & Hlz & Hx & Hy & Hz) HoR HoI.
  destruct Hib as [HM Hk H3x H3y H3z Hcells].
  unfold knot_body.
  rewrite !(load_rd (knots a)) by lia.
  cbn -[Z.add Z.mul Z.sub wrapped for_upto fill_E_2].
  fold (knot_x a i) (knot_y a i) (knot_z a i).
  rewrite fill_E_2_weight_seq by done.
  cbn -[Z.add Z.mul Z.sub wrapped for_upto].
  apply conv_loops; try done.
  - rewrite length_weight_seq. lia.
  - rewrite length_weight_seq. lia.
  - rewrite length_weight_seq. lia.
  - intros. by apply Hcells.
  - unfold accumulating. simpl. split_and!; (done || lia).
Qed.

End Closed.
(** ** The loop over the knots *)

Section Run.
Context (a : mex_args) (gx gy gz : list R).

#[local] Abbreviation p := (Scales a).

Lemma length_partial_out (grid : list R) (k : Z) :
  length (partial_out a grid k) = Z.to_nat (M a).
Proof. unfold partial_out. by rewrite length_fmap, length_seqZ. Qed.

Lemma lookup_partial_out (grid : list R) (k : Z) (n : nat) :
  Z.of_nat n < M a →
  partial_out a grid k !! n
  = Some (if decide (Z.of_nat n < k)
          then knot_value a grid (Z.of_nat n) else 0%R).
Proof.
  intros Hn. unfold partial_out.
  by rewrite list_lookup_fmap, lookup_seqZ_lt by lia.
Qed.

Lemma partial_out_0 (grid : list R) :
  partial_out a grid 0 = replicate (Z.to_nat (M a)) 0%R.
Proof.
  apply list_eq. intros n. destruct (decide (Z.of_nat n < M a)) as [Hn|Hn].
  - rewrite lookup_partial_out, lookup_replicate_2 by lia.
    by rewrite decide_False by lia.
  - rewrite !lookup_ge_None_2; [done| |].
    + rewrite length_replicate. lia.
    + rewrite length_partial_out. lia.
Qed.

Lemma partial_out_all (grid : list R) :
  partial_out a grid (M a) = engine_out a grid.
Proof.
  apply list_fmap_ext. intros n j [-> Hn]%lookup_seqZ.
  by rewrite decide_True by lia.
Qed.

Lemma partial_out_step (grid : list R) (k : Z) :
  0 ≤ k < M a →
  alter (λ x, x + knot_value a grid k)%R (Z.to_nat k) (partial_out a grid k)
  = partial_out a grid (k + 1).
Proof.
  intros Hk. apply list_eq. intros n.
  destruct (decide (Z.of_nat n < M a)) as [Hn|Hn].
  2:{ rewrite !lookup_ge_None_2; [done| |].
      - rewrite length_partial_out. lia.
      - rewrite length_alter, length_partial_out. lia. }
  destruct (decide (n = Z.to_nat k)) as [->|Hne].
  - rewrite list_lookup_alter_eq, !lookup_partial_out by lia. simpl.
    rewrite decide_False, decide_True by lia. f_equal.
    rewrite Z2Nat.id by lia. lra.
  - rewrite list_lookup_alter_ne, !lookup_partial_out by lia.
    f_equal. repeat case_decide; (done || lia).
Qed.

(** The zeroing loop leaves the fresh outputs as they are. *)
Lemma zero_loop (s : state) :
  outArrayR s = replicate (Z.to_nat (M a)) 0%R →
  outArrayI s = replicate (Z.to_nat (M a)) 0%R →
  for_below 0 (M a) zero_body s = Some s.
Proof.
  intros HR HI. unfold for_below.
  destruct (iterate_invariant (λ _ s', s' = s) 1
    (Z.to_nat (M a - 0)) 0 zero_body s) as (s' & Hs' & ->); [done| |done].
  intros k s' Hk ->. exists s. split; [|done].
  unfold zero_body. rewrite !store_in_range.
  2,3: rewrite ?HR, ?HI, length_replicate; lia.
  simpl. rewrite !list_insert_id.
  2,3: rewrite ?HR, ?HI; apply lookup_replicate_2; lia.
  by destruct s.
Qed.

Hypothesis Hib : in_bounds a.

Lemma mex_init_initial : mex_init a gx gy gz = Some (initial a gx gy gz).
Proof using Hib.
  pose proof (ib_M_sp a Hib) as HM.
  unfold mex_init. cbn zeta. rewrite zero_loop by done.
  cbn -[Z.mul Z.sub Z.to_nat].
  rewrite !store_in_range by (unfold malloc; rewrite length_resize; lia).
  unfold initial. by rewrite !partial_out_0.
Qed.

Lemma seeded_initial : seeded a (initial a gx gy gz).
Proof using Hib.
  pose proof (ib_M_sp a Hib) as HM.
  unfold seeded, initial. simpl.
  rewrite !length_insert. unfold malloc. rewrite !length_resize.
  split_and!; try done;
    (rewrite load_lookup by lia; apply list_lookup_insert_eq;
     rewrite length_resize; lia).
Qed.

Lemma outArrayR_state_after (k : nat) :
  outArrayR (state_after a gx gy gz k)
  = partial_out a (ftaur a) (Z.of_nat k).
Proof. by destruct k. Qed.

Lemma outArrayI_state_after (k : nat) :
  outArrayI (state_after a gx gy gz k)
  = partial_out a (ftaui a) (Z.of_nat k).
Proof. by destruct k. Qed.

Lemma seeded_state_after (k : nat) : seeded a (state_after a gx gy gz k).
Proof using Hib.
  destruct k as [|k]; [apply seeded_initial|].
  apply (seeded_scratch_of a (Z.of_nat k) (initial a gx gy gz)), Hib.
Qed.

Lemma after_knots_state (k : nat) :
  Z.of_nat k ≤ M a →
  after_knots a gx gy gz k = Some (state_after a gx gy gz k).
Proof using Hib.
  intros Hk. unfold after_knots. rewrite mex_init_initial. simpl.
  destruct (iterate_invariant (λ c s, s = state_after a gx gy gz c) 1 k 0
    (knot_body a) (initial a gx gy gz)) as (s & Hs & ->); [done| |done].
  intros c s Hc ->.
  replace (0 + Z.of_nat c * 1) with (Z.of_nat c) by lia.
  eexists. split.
  { apply knot_body_value; [done|lia|apply seeded_state_after| |].
    - rewrite outArrayR_state_after, length_partial_out. lia.
    - rewrite outArrayI_state_after, length_partial_out. lia. }
  unfold bump, set_out, scratch_of, set_E_2.
  cbn [outArrayR outArrayI E_2x E_2y E_2z state_after].
  rewrite outArrayR_state_after, outArrayI_state_after.
  pose proof (partial_out_step (ftaur a) (Z.of_nat c)) as ER.
  pose proof (partial_out_step (ftaui a) (Z.of_nat c)) as EI.
  rewrite ER, EI by lia.
  replace (Z.of_nat c + 1) with (Z.of_nat (Datatypes.S c)) by lia.
  done.
Qed.

(** The whole run. *)
Lemma mexFunction_value :
  mexFunction a gx gy gz
  = Some (engine_out a (ftaur a), engine_out a (ftaui a)).
Proof using Hib.
  destruct (decide (0 ≤ M a)) as [HM|HM].
  - assert (Hs := after_knots_state (Z.to_nat (M a)) ltac:(lia)).
    unfold after_knots in Hs. unfold mexFunction, for_below.
    replace (M a - 0) with (M a) by lia.
    destruct (mex_init a gx gy gz) as [s0|]; [|done]. simpl in *.
    rewrite Hs. simpl.
    rewrite outArrayR_state_after, outArrayI_state_after.
    by rewrite Z2Nat.id, !partial_out_all by lia.
  - unfold mexFunction, for_below. rewrite mex_init_initial. simpl.
    replace (Z.to_nat (M a - 0)) with O by lia. simpl.
    unfold engine_out, partial_out. by rewrite !seqZ_nil by lia.
Qed.

End Run.
(** ** Index arithmetic *)

Lemma PI_pos : (0 < PI)%R.
Proof. unfold PI. lra. Qed.

(** A knot coordinate in [[0, 2*PI)] has its lattice index in [[0, M_r)]. *)
Lemma nearest_range (M_r : Z) (knot : R) :
  0 < M_r → (0 <= knot < 2 * PI)%R → 0 ≤ nearest M_r knot < M_r.
Proof.
  intros HN [Hk0 Hk1]. unfold nearest.
  set (r := (IZR M_r * knot / (2 * PI))%R).
  pose proof PI_pos as HPI.
  assert (HN' : (0 < IZR M_r)%R) by (apply (IZR_lt 0); lia).
  assert (Hr : (r * (2 * PI) = IZR M_r * knot)%R)
    by (unfold r; field; lra).
  assert (Hr0 : (0 <= r)%R) by nra.
  assert (Hr1 : (r < IZR M_r)%R) by nra.
  destruct (base_Int_part r) as [Hle Hgt].
  split.
  - apply Z.lt_succ_r, lt_IZR. rewrite succ_IZR. lra.
  - apply lt_IZR. lra.
Qed.

(** A knot on a lattice point has that lattice index. *)
Lemma nearest_lattice (M_r m : Z) :
  0 < M_r → nearest M_r (IZR m * (2 * PI / IZR M_r)) = m.
Proof.
  intros HN. unfold nearest. symmetry. apply Int_part_spec.
  pose proof PI_pos as HPI.
  assert (HN' : (0 < IZR M_r)%R) by (apply (IZR_lt 0); lia).
  replace (IZR M_r * (IZR m * (2 * PI / IZR M_r)) / (2 * PI))%R
    with (IZR m) by (field; lra).
  lra.
Qed.

(** On an even extent [M_r = 2*h] the wrapped index is an integer sum. *)
Lemma wrapped_even (M_r h m l : Z) :
  M_r = 2 * h →
  wrapped M_r m l
  = m + l + (upper_test M_r m l - lower_test M_r m l) * M_r + h.
Proof.
  intros ->. unfold wrapped.
  set (c := upper_test (2 * h) m l - lower_test (2 * h) m l).
  replace (2 * (m + l + c * (2 * h)) + 2 * h)
    with ((m + l + c * (2 * h) + h) * 2) by lia.
  by rewrite Z.quot_mul.
Qed.

(** The three cases of the boundary tests. *)
Lemma wrapped_cases (M_r h m l : Z) :
  M_r = 2 * h → 0 < h →
  (- h ≤ m + l < h ∧ wrapped M_r m l = m + l + h) ∨
  (h ≤ m + l ∧ wrapped M_r m l = m + l - h) ∨
  (m + l < - h ∧ wrapped M_r m l = m + l + 3 * h).
Proof.
  intros HN Hh. rewrite (wrapped_even _ h) by done. subst M_r.
  unfold upper_test, lower_test.
  destruct (Z.leb_spec 0 (2 * (m + l) + 2 * h));
    destruct (Z.ltb_spec (2 * (m + l)) (2 * h)); simpl; lia.
Qed.

Lemma wrapped_range (M_r h m l : Z) :
  M_r = 2 * h → 0 < h → - 3 * h ≤ m + l < 3 * h →
  0 ≤ wrapped M_r m l < M_r.
Proof.
  intros HN Hh Hml.
  destruct (wrapped_cases M_r h m l HN Hh) as [[? ->]|[[? ->]|[? ->]]]; lia.
Qed.

(** Two offsets less than an extent apart wrap to different cells. *)
Lemma wrapped_inj (M_r h m l l' : Z) :
  M_r = 2 * h → 0 < h →
  - 3 * h ≤ m + l < 3 * h → - 3 * h ≤ m + l' < 3 * h →
  - M_r < l - l' < M_r →
  wrapped M_r m l = wrapped M_r m l' → l = l'.
Proof.
  intros HN Hh Hl Hl' Hd.
  destruct (wrapped_cases M_r h m l HN Hh) as [[? ->]|[[? ->]|[? ->]]];
    destruct (wrapped_cases M_r h m l' HN Hh) as [[? ->]|[[? ->]|[? ->]]];
    lia.
Qed.

(** The wrapped index is the periodic one, centred on the half extent. *)
Lemma wrapped_mod (M_r h m l : Z) :
  M_r = 2 * h → 0 < h → - 3 * h ≤ m + l < 3 * h →
  wrapped M_r m l = (m + l + h) mod M_r.
Proof.
  intros HN Hh Hml.
  destruct (wrapped_cases M_r h m l HN Hh) as [[? ->]|[[? ->]|[? ->]]].
  - symmetry. apply Z.mod_small. lia.
  - apply (Z.mod_unique_pos _ _ 1); lia.
  - apply (Z.mod_unique_pos _ _ (-1)); lia.
Qed.

(** The window of the spec's scenario ([M_sp = 2] on a 4-point axis), from
    the first and from the last lattice point: the indices wrap around. *)
Example wrapped_sweep_first : wrapped 4 0 <$> offsets 2 = [1; 2; 3; 0].
Proof. reflexivity. Qed.

Example wrapped_sweep_last : wrapped 4 3 <$> offsets 2 = [0; 1; 2; 3].
Proof. reflexivity. Qed.

(** The domain of the knots is half open for a reason: a coordinate of
    [2*PI] has lattice index [M_r], and from there the last offset of the
    widest window lands one past the end of the axis. *)
Lemma nearest_upper_end (M_r : Z) : 0 < M_r → nearest M_r (2 * PI) = M_r.
Proof.
  intros HN. rewrite <- (nearest_lattice M_r M_r HN) at 2. f_equal.
  assert (IZR M_r ≠ 0%R) by (apply not_0_IZR; lia).
  field. done.
Qed.

Lemma wrapped_upper_end (M_r h : Z) :
  M_r = 2 * h → 0 < h → wrapped M_r M_r h = M_r.
Proof.
  intros HN Hh.
  destruct (wrapped_cases M_r h M_r h HN Hh) as [[? ->]|[[? ->]|[? ->]]]; lia.
Qed.

(** The linear index of an in-range triple is in range, and determines
    the triple. *)
Lemma linear_range (a : mex_args) (x y z : Z) :
  0 ≤ x < M_rx (Scales a) → 0 ≤ y < M_ry (Scales a) →
  0 ≤ z < M_rz (Scales a) →
  0 ≤ linear a x y z < M_rx (Scales a) * M_ry (Scales a) * M_rz (Scales a).
Proof.
  unfold linear. intros Hx Hy Hz.
  set (Nx := M_rx (Scales a)) in *. set (Ny := M_ry (Scales a)) in *.
  set (Nz := M_rz (Scales a)) in *.
  assert (H1 : 0 ≤ Nx * y ≤ Nx * (Ny - 1)) by nia.
  assert (H2 : 0 < Nx * Ny) by nia.
  assert (H3 : 0 ≤ Nx * Ny * z ≤ Nx * Ny * (Nz - 1)) by nia.
  nia.
Qed.

Lemma linear_inj (a : mex_args) (x y z x' y' z' : Z) :
  0 ≤ x < M_rx (Scales a) → 0 ≤ y < M_ry (Scales a) →
  0 ≤ x' < M_rx (Scales a) → 0 ≤ y' < M_ry (Scales a) →
  linear a x y z = linear a x' y' z' → x = x' ∧ y = y' ∧ z = z'.
Proof.
  unfold linear. intros Hx Hy Hx' Hy' Heq.
  set (Nx := M_rx (Scales a)) in *. set (Ny := M_ry (Scales a)) in *.
  assert (H1 : 0 ≤ Nx * y ≤ Nx * (Ny - 1)) by nia.
  assert (H1' : 0 ≤ Nx * y' ≤ Nx * (Ny - 1)) by nia.
  assert (H2 : 0 < Nx * Ny) by nia.
  assert (Hz : z = z').
  { destruct (Z.lt_trichotomy z z') as [Hlt|[->|Hgt]]; [|done|].
    - assert (Nx * Ny * (z + 1) ≤ Nx * Ny * z') by nia. nia.
    - assert (Nx * Ny * (z' + 1) ≤ Nx * Ny * z) by nia. nia. }
  subst z'.
  assert (Hy2 : y = y').
  { destruct (Z.lt_trichotomy y y') as [Hlt|[->|Hgt]]; [|done|].
    - assert (Nx * (y + 1) ≤ Nx * y') by nia. nia.
    - assert (Nx * (y' + 1) ≤ Nx * y) by nia. nia. }
  subst y'. lia.
Qed.

Lemma rd_domain (l : list R) (j : Z) :
Forall (λ k, (0 <= k < 2 * PI)%R) l → 0 ≤ j < Z.of_nat (length l) →
(0 <= rd l j < 2 * PI)%R.
Proof.
intros Hall Hj. pose proof (load_rd l j Hj) as Hl.
rewrite load_lookup in Hl by lia.
by apply (Forall_lookup_1 _ _ _ _ Hall Hl).
Qed.

(** In the stated domain a window of one axis stays inside the axis. *)
Lemma window_range (M_r M_sp m l : Z) :
1 ≤ M_sp → Z.Even M_r → 2 * M_sp ≤ M_r → 0 ≤ m < M_r →
1 - M_sp ≤ l ≤ M_sp → 0 ≤ wrapped M_r m l < M_r.
Proof.
intros HM [h ->] Hw Hm Hl. apply (wrapped_range _ h); lia.
Qed.

Lemma window_inj (M_r M_sp m l l' : Z) :
1 ≤ M_sp → Z.Even M_r → 2 * M_sp ≤ M_r → 0 ≤ m < M_r →
1 - M_sp ≤ l ≤ M_sp → 1 - M_sp ≤ l' ≤ M_sp →
wrapped M_r m l = wrapped M_r m l' → l = l'.
Proof.
intros HM [h ->] Hw Hm Hl Hl'. apply (wrapped_inj _ h); lia.
Qed.

Section Shaped.
Context (a : mex_args) (Hs : shaped a).

#[local] Abbreviation p := (Scales a).

Lemma shaped_nearest_x (i : Z) :
  0 ≤ i < M a → 0 ≤ nearest (M_rx p) (knot_x a i) < M_rx p.
Proof using Hs.
  destruct Hs. intros Hi. apply nearest_range; [lia|].
  apply rd_domain; [done|lia].
Qed.

Lemma shaped_nearest_y (i : Z) :
  0 ≤ i < M a → 0 ≤ nearest (M_ry p) (knot_y a i) < M_ry p.
Proof using Hs.
  destruct Hs. intros Hi. apply nearest_range; [lia|].
  apply rd_domain; [done|lia].
Qed.

Lemma shaped_nearest_z (i : Z) :
  0 ≤ i < M a → 0 ≤ nearest (M_rz p) (knot_z a i) < M_rz p.
Proof using Hs.
  destruct Hs. intros Hi. apply nearest_range; [lia|].
  apply rd_domain; [done|lia].
Qed.

Lemma shaped_in_bounds : in_bounds a.
Proof using Hs.
  pose proof shaped_nearest_x as Hx. pose proof shaped_nearest_y as Hy.
  pose proof shaped_nearest_z as Hz. destruct Hs.
  split; try lia.
  intros i l1 l2 l3 Hi H1 H2 H3.
  rewrite v_ftaur0, v_ftaui0, Nat.min_id.
  assert (Hlin := linear_range a
    (wrapped (M_rx p) (nearest (M_rx p) (knot_x a i)) l1)
    (wrapped (M_ry p) (nearest (M_ry p) (knot_y a i)) l2)
    (wrapped (M_rz p) (nearest (M_rz p) (knot_z a i)) l3)
    ltac:(apply (window_range _ (M_sp p)); auto)
    ltac:(apply (window_range _ (M_sp p)); auto)
    ltac:(apply (window_range _ (M_sp p)); auto)).
  lia.
Qed.

End Shaped.

Lemma valid_nearest_x (a : mex_args) (Hv : valid a) (i : Z) :
  0 ≤ i < M a →
  0 ≤ nearest (M_rx (Scales a)) (knot_x a i) < M_rx (Scales a).
Proof. apply shaped_nearest_x, Hv. Qed.

Lemma valid_nearest_y (a : mex_args) (Hv : valid a) (i : Z) :
  0 ≤ i < M a →
  0 ≤ nearest (M_ry (Scales a)) (knot_y a i) < M_ry (Scales a).
Proof. apply shaped_nearest_y, Hv. Qed.

Lemma valid_nearest_z (a : mex_args) (Hv : valid a) (i : Z) :
  0 ≤ i < M a →
  0 ≤ nearest (M_rz (Scales a)) (knot_z a i) < M_rz (Scales a).
Proof. apply shaped_nearest_z, Hv. Qed.

Lemma valid_in_bounds (a : mex_args) : valid a → in_bounds a.
Proof. intros Hv. apply shaped_in_bounds, Hv. Qed.

(** ** Finite sums *)

Lemma Rsum_cons (x : R) (l : list R) : Rsum (x :: l) = (x + Rsum l)%R.
Proof. reflexivity. Qed.

Lemma Rsum_ext {A : Type} (f g : A → R) (l : list A) :
  (∀ x, x ∈ l → f x = g x) → Rsum (f <$> l) = Rsum (g <$> l).
Proof.
  induction l as [|x l IH]; intros H; [done|].
  rewrite !fmap_cons, !Rsum_cons, H by left.
  rewrite IH; [done|]. intros y Hy. apply H. by right.
Qed.

Lemma Rsum_lin {A : Type} (α β : R) (f g : A → R) (l : list A) :
  Rsum ((λ x, α * f x + β * g x)%R <$> l)
  = (α * Rsum (f <$> l) + β * Rsum (g <$> l))%R.
Proof.
  induction l as [|x l IH]; [simpl; lra|].
  rewrite !fmap_cons, !Rsum_cons, IH. lra.
Qed.

Lemma Rsum_zero {A : Type} (f : A → R) (l : list A) :
  (∀ x, x ∈ l → f x = 0%R) → Rsum (f <$> l) = 0%R.
Proof.
  induction l as [|x l IH]; intros H; [done|].
  rewrite fmap_cons, Rsum_cons, H by left. rewrite IH; [lra|].
  intros y Hy. apply H. by right.
Qed.

(** A sum with one nonzero term is that term. *)
Lemma Rsum_single {A : Type} (f : A → R) (l : list A) (x0 : A) :
  NoDup l → x0 ∈ l → (∀ x, x ∈ l → x ≠ x0 → f x = 0%R) →
  Rsum (f <$> l) = f x0.
Proof.
  induction l as [|x l IH]; intros Hnd Hin Hz; [by apply elem_of_nil in Hin|].
  apply NoDup_cons in Hnd as [Hx Hnd]. rewrite fmap_cons, Rsum_cons.
  apply elem_of_cons in Hin as [->|Hin].
  - rewrite Rsum_zero; [lra|]. intros y Hy. apply Hz; [by right|].
    intros ->. done.
  - rewrite IH; [|done|done|intros y Hy; apply Hz; by right].
    rewrite Hz; [lra|by left|]. intros ->. done.
Qed.

(** The order of two nested sums does not matter. *)
Lemma Rsum_swap {A B : Type} (f : A → B → R) (l : list A) (k : list B) :
  Rsum ((λ x, Rsum ((λ y, f x y) <$> k)) <$> l)
  = Rsum ((λ y, Rsum ((λ x, f x y) <$> l)) <$> k).
Proof.
  induction l as [|x l IH].
  - symmetry. by apply Rsum_zero.
  - rewrite fmap_cons, Rsum_cons, IH. clear IH.
    induction k as [|y k IH]; [simpl; lra|].
    rewrite !fmap_cons, !Rsum_cons, <- IH. lra.
Qed.

Lemma elem_of_offsets (M_sp l : Z) :
  l ∈ offsets M_sp ↔ 1 - M_sp ≤ l ≤ M_sp.
Proof. unfold offsets. rewrite elem_of_seqZ. lia. Qed.

Lemma NoDup_offsets (M_sp : Z) : NoDup (offsets M_sp).
Proof. apply NoDup_seqZ. Qed.

Lemma length_offsets (M_sp : Z) : length (offsets M_sp) = Z.to_nat (2 * M_sp).
Proof. apply length_seqZ. Qed.

Lemma Rsum_swap3 {A B C : Type} (f : A → B → C → R)
    (l : list A) (k : list B) (j : list C) :
  Rsum ((λ z, Rsum ((λ y, Rsum ((λ x, f x y z) <$> l)) <$> k)) <$> j)
  = Rsum ((λ x, Rsum ((λ y, Rsum ((λ z, f x y z) <$> j)) <$> k)) <$> l).
Proof.
  rewrite (Rsum_swap (λ z y, Rsum ((λ x, f x y z) <$> l)) j k).
  rewrite (Rsum_ext _ (λ y, Rsum ((λ x, Rsum ((λ z, f x y z) <$> j)) <$> l)) k).
  2:{ intros y _. apply (Rsum_swap (λ z x, f x y z) j l). }
  apply (Rsum_swap (λ y x, Rsum ((λ z, f x y z) <$> j)) k l).
Qed.

(** ** The sample run is in the stated domain *)

Lemma valid_sample_args : valid sample_args.
Proof.
  split; [split| | |]; simpl; try lia; try lra; try reflexivity;
    try (by exists 2).
  pose proof PI_pos. repeat constructor; lra.
Qed.

(** ** The closed form and the contract's sum *)

Lemma periodic_index_wrapped (N h m l : Z) :
  N = 2 * h → 0 < h → periodic_index N (m + l) = wrapped N m l.
Proof.
  intros HN Hh. unfold periodic_index.
  replace (N / 2) with h by (subst N; by rewrite Z.mul_comm, Z.div_mul).
  destruct (wrapped_cases N h m l HN Hh) as [[? ->]|[[? ->]|[? ->]]];
    destruct (Z.leb_spec h (m + l)); destruct (Z.ltb_spec (m + l) (- h)); lia.
Qed.

Lemma rd_weight_seq (M_sp : Z) (rho : R) (l : Z) :
  1 - M_sp ≤ l ≤ M_sp → rd (weight_seq M_sp rho) (M_sp + l - 1) = powerRZ rho l.
Proof.
  intros Hl. unfold rd. rewrite load_weight_seq by lia. simpl.
  f_equal. lia.
Qed.

(** The offset as the source computes it is the offset of step 2. *)
Lemma subcell_offset (M_r : Z) (knot : R) :
  M_r ≠ 0 →
  subcell M_r knot = (knot - IZR (nearest M_r knot) * (2 * PI / IZR M_r))%R.
Proof.
  intros HN. unfold subcell.
  assert (IZR M_r ≠ 0%R) by (by apply not_0_IZR).
  field. done.
Qed.

Lemma E_1_offset (M_r : Z) (tau knot : R) :
  M_r ≠ 0 →
  E_1 tau (subcell M_r knot)
  = exp (- ((knot - IZR (nearest M_r knot) * (2 * PI / IZR M_r))
            * (knot - IZR (nearest M_r knot) * (2 * PI / IZR M_r)))
         / (4 * tau))%R.
Proof.
  intros HN. unfold E_1. rewrite subcell_offset by done.
  f_equal. unfold Rdiv. ring.
Qed.

Lemma knot_value_gaussian_sum (a : mex_args) (grid : list R) (i : Z) :
  valid a → knot_value a grid i = gaussian_sum a grid i.
Proof.
  intros Hv. destruct Hv as [[] ? ? ?].
  destruct v_even_x0 as [hx Hx], v_even_y0 as [hy Hy], v_even_z0 as [hz Hz].
  unfold knot_value, knot_sum, triple_sum, gaussian_sum. cbn zeta.
  etrans; [apply (Rsum_swap3 (λ l1 l2 l3, term a _ _ _ grid _ _ _ _ l1 l2 l3))|].
  apply Rsum_ext. intros l1 H1%elem_of_offsets.
  apply Rsum_ext. intros l2 H2%elem_of_offsets.
  apply Rsum_ext. intros l3 H3%elem_of_offsets.
  unfold term, linear. rewrite !rd_weight_seq by done.
  fold (nearest (M_rx (Scales a)) (knot_x a i)).
  fold (nearest (M_ry (Scales a)) (knot_y a i)).
  fold (nearest (M_rz (Scales a)) (knot_z a i)).
  rewrite (periodic_index_wrapped _ hx), (periodic_index_wrapped _ hy),
    (periodic_index_wrapped _ hz) by lia.
  rewrite <- !E_1_offset by lia. ring.
Qed.

Lemma load_engine_out (a : mex_args) (grid : list R) (i : Z) :
  0 ≤ i < M a → load (engine_out a grid) i = Some (knot_value a grid i).
Proof.
  intros Hi. rewrite load_lookup by lia. unfold engine_out.
  rewrite list_lookup_fmap, lookup_seqZ_lt by lia. simpl.
  do 2 f_equal. lia.
Qed.

Lemma length_engine_out (a : mex_args) (grid : list R) :
  length (engine_out a grid) = Z.to_nat (M a).
Proof. unfold engine_out. by rewrite length_fmap, length_seqZ. Qed.

(** ** Lists built by three nested loops *)

Lemma length_bind_const {A B : Type} (f : A → list B) (n : nat) (l : list A) :
  (∀ x, length (f x) = n) → length (l ≫= f) = (length l * n)%nat.
Proof.
  intros Hf. induction l as [|x l IH]; [done|].
  rewrite bind_cons, length_app, Hf, IH. simpl. lia.
Qed.

Lemma elem_of_bind3 (g : Z → Z → Z → Z) (l : list Z) (v : Z) :
  v ∈ (z ← l; y ← l; x ← l; [g x y z]) ↔
  ∃ x y z, x ∈ l ∧ y ∈ l ∧ z ∈ l ∧ v = g x y z.
Proof.
  rewrite list_elem_of_bind. split.
  - intros (z & (y & (x & Hv%list_elem_of_singleton & Hx)%list_elem_of_bind
                   & Hy)%list_elem_of_bind & Hz).
    by exists x, y, z.
  - intros (x & y & z & Hx & Hy & Hz & ->). exists z. split; [|done].
    apply list_elem_of_bind. exists y. split; [|done].
    apply list_elem_of_bind. exists x. split; [|done].
    by apply list_elem_of_singleton.
Qed.

Lemma NoDup_bind3 (g : Z → Z → Z → Z) (l : list Z) :
  NoDup l →
  (∀ x y z x' y' z', x ∈ l → y ∈ l → z ∈ l → x' ∈ l → y' ∈ l → z' ∈ l →
     g x y z = g x' y' z' → x = x' ∧ y = y' ∧ z = z') →
  NoDup (z ← l; y ← l; x ← l; [g x y z]).
Proof.
  intros Hl Hg. apply NoDup_bind; [|intros z Hz|done].
  - intros z z' v Hz Hz'
      (y & (x & ->%list_elem_of_singleton & Hx)%list_elem_of_bind
         & Hy)%list_elem_of_bind
      (y' & (x' & E%list_elem_of_singleton & Hx')%list_elem_of_bind
          & Hy')%list_elem_of_bind.
    by destruct (Hg x y z x' y' z') as (_ & _ & ?).
  - apply NoDup_bind; [|intros y Hy|done].
    + intros y y' v Hy Hy'
        (x & ->%list_elem_of_singleton & Hx)%list_elem_of_bind
        (x' & E%list_elem_of_singleton & Hx')%list_elem_of_bind.
      by destruct (Hg x y z x' y' z) as (_ & ? & _).
    + apply NoDup_bind; [|intros x Hx; apply NoDup_singleton|done].
      intros x x' v Hx Hx' ->%list_elem_of_singleton E%list_elem_of_singleton.
      by destruct (Hg x y z x' y z) as (? & _ & _).
Qed.

(** * The claims *)



(** In the stated domain the offset triples of one window reach distinct
    cells. *)
Lemma window_linear_inj (a : mex_args) (m1 m2 m3 l1 l2 l3 l1' l2' l3' : Z) :
  shaped a →
  0 ≤ m1 < M_rx (Scales a) → 0 ≤ m2 < M_ry (Scales a) →
  0 ≤ m3 < M_rz (Scales a) →
  1 - M_sp (Scales a) ≤ l1 ≤ M_sp (Scales a) →
  1 - M_sp (Scales a) ≤ l2 ≤ M_sp (Scales a) →
  1 - M_sp (Scales a) ≤ l3 ≤ M_sp (Scales a) →
  1 - M_sp (Scales a) ≤ l1' ≤ M_sp (Scales a) →
  1 - M_sp (Scales a) ≤ l2' ≤ M_sp (Scales a) →
  1 - M_sp (Scales a) ≤ l3' ≤ M_sp (Scales a) →
  linear a (wrapped (M_rx (Scales a)) m1 l1) (wrapped (M_ry (Scales a)) m2 l2)
           (wrapped (M_rz (Scales a)) m3 l3)
  = linear a (wrapped (M_rx (Scales a)) m1 l1')
             (wrapped (M_ry (Scales a)) m2 l2')
             (wrapped (M_rz (Scales a)) m3 l3') →
  l1 = l1' ∧ l2 = l2' ∧ l3 = l3'.
Proof.
  intros Hv Hm1 Hm2 Hm3 H1 H2 H3 H1' H2' H3' Heq. destruct Hv.
  apply linear_inj in Heq as (Ex & Ey & Ez);
    try (apply (window_range _ (M_sp (Scales a))); done).
  split_and!.
  - by apply (window_inj (M_rx (Scales a)) (M_sp (Scales a)) m1).
  - by apply (window_inj (M_ry (Scales a)) (M_sp (Scales a)) m2).
  - by apply (window_inj (M_rz (Scales a)) (M_sp (Scales a)) m3).
Qed.



(** ** The ratio of the weight sequence *)

Lemma valid_offgrid_args : valid offgrid_args.
Proof.
  split; [split| | |]; simpl; try lia; try lra; try reflexivity;
    try (by exists 2).
  unfold PI. repeat constructor; lra.
Qed.

(** The knot coordinate 1 lies in the first cell of a 4-point axis. *)
Lemma nearest_4_1 : nearest 4 1 = 0.
Proof.
  unfold nearest. symmetry. apply Int_part_spec.
  assert (H : (4 * 1 / (2 * PI) * PI = 2)%R) by (unfold PI; field).
  assert (HPI : (3 < PI)%R) by (unfold PI; lra).
  split; nra.
Qed.

(** The state after the last of [k+1] knots holds the powers of the
    ratios of knot [k]. *)
Lemma E_2_after_knot (a : mex_args) (gx gy gz : list R) (k : nat) :
  valid a → Z.of_nat k < M a →
  ∃ s, after_knots a gx gy gz (Datatypes.S k) = Some s ∧
    E_2x s = weight_seq (M_sp (Scales a))
      (E_2dummy (M_rx (Scales a)) (taux (Scales a))
         (subcell (M_rx (Scales a)) (knot_x a (Z.of_nat k)))) ∧
    E_2y s = weight_seq (M_sp (Scales a))
      (E_2dummy (M_ry (Scales a)) (tauy (Scales a))
         (subcell (M_ry (Scales a)) (knot_y a (Z.of_nat k)))) ∧
    E_2z s = weight_seq (M_sp (Scales a))
      (E_2dummy (M_rz (Scales a)) (tauz (Scales a))
         (subcell (M_rz (Scales a)) (knot_z a (Z.of_nat k)))).
Proof.
  intros Hv Hk. eexists. split.
  - apply after_knots_state; [by apply valid_in_bounds|lia].
  - done.
Qed.

(** C3, as stated, fails.  On the 4x4x4 sample with the knot at (1,1,1)
    the offset of step 2 is 1 along x, the slot for offset 1 of [E_2x]
    holds the ratio the recurrences used, and that ratio is not
    [exp(d*2*PI/(N*tau))]. *)
Lemma C3_counterexample :
  ∃ s rho,
    after_knots offgrid_args [] [] [] 1 = Some s ∧
    load (E_2x s) (M_sp (Scales offgrid_args) + 1 - 1) = Some rho ∧
    rho ≠ stated_ratio (M_rx (Scales offgrid_args)) (taux (Scales offgrid_args))
            (step2_offset (M_rx (Scales offgrid_args)) (knot_x offgrid_args 0)).
Proof.
  destruct (E_2_after_knot offgrid_args [] [] [] 0 valid_offgrid_args)
    as (s & Hs & Ex & _); [simpl; lia|].
  exists s, (E_2dummy 4 1 (subcell 4 1)). split; [done|]. split.
  - rewrite Ex. simpl. rewrite load_weight_seq by lia.
    change (knot_x offgrid_args (Z.of_nat 0)) with 1%R.
    change (2 + 1 - 1 - 2 + 1) with (Z.succ 0). by rewrite powerRZ_1.
  - change (knot_x offgrid_args 0) with 1%R. simpl.
    unfold stated_ratio, step2_offset, E_2dummy, subcell.
    fold (nearest 4 1). rewrite nearest_4_1.
    intros Heq%exp_inv. unfold PI in Heq. lra.
Qed.

(** C3, amended.  For each axis and each knot of a run in the stated
    domain, the weight sequence the recurrences generate is the sequence of
    powers of [exp(d*PI/(N*tau))], where [d] is the sub-cell offset of
    step 2, [N] the extent and [tau] the spreading width of the axis. *)
Theorem C3_ratio_uses_PI (a : mex_args) (gx gy gz : list R) (k : nat) :
  valid a → Z.of_nat k < M a →
  ∃ s, after_knots a gx gy gz (Datatypes.S k) = Some s ∧
    E_2x s = weight_seq (M_sp (Scales a))
      (halved_ratio (M_rx (Scales a)) (taux (Scales a))
         (step2_offset (M_rx (Scales a)) (knot_x a (Z.of_nat k)))) ∧
    E_2y s = weight_seq (M_sp (Scales a))
      (halved_ratio (M_ry (Scales a)) (tauy (Scales a))
         (step2_offset (M_ry (Scales a)) (knot_y a (Z.of_nat k)))) ∧
    E_2z s = weight_seq (M_sp (Scales a))
      (halved_ratio (M_rz (Scales a)) (tauz (Scales a))
         (step2_offset (M_rz (Scales a)) (knot_z a (Z.of_nat k)))).
Proof.
  intros Hv Hk.
  destruct (E_2_after_knot a gx gy gz k Hv Hk) as (s & Hs & Ex & Ey & Ez).
  exists s. split; [done|]. rewrite Ex, Ey, Ez. destruct Hv as [[] ? ? ?].
  unfold step2_offset, halved_ratio.
  fold (nearest (M_rx (Scales a)) (knot_x a (Z.of_nat k))).
  fold (nearest (M_ry (Scales a)) (knot_y a (Z.of_nat k))).
  fold (nearest (M_rz (Scales a)) (knot_z a (Z.of_nat k))).
  rewrite <- !subcell_offset by lia. done.
Qed.

Lemma C3_witness :
  ∃ s, after_knots offgrid_args [] [] [] 1 = Some s ∧
    E_2x s = weight_seq (M_sp (Scales offgrid_args))
      (halved_ratio (M_rx (Scales offgrid_args)) (taux (Scales offgrid_args))
         (step2_offset (M_rx (Scales offgrid_args))
            (knot_x offgrid_args (Z.of_nat 0)))) ∧
    E_2y s = weight_seq (M_sp (Scales offgrid_args))
      (halved_ratio (M_ry (Scales offgrid_args)) (tauy (Scales offgrid_args))
         (step2_offset (M_ry (Scales offgrid_args))
            (knot_y offgrid_args (Z.of_nat 0)))) ∧
    E_2z s = weight_seq (M_sp (Scales offgrid_args))
      (halved_ratio (M_rz (Scales offgrid_args)) (tauz (Scales offgrid_args))
         (step2_offset (M_rz (Scales offgrid_args))
            (knot_z offgrid_args (Z.of_nat 0)))).
Proof.
  apply (C3_ratio_uses_PI offgrid_args [] [] [] 0).
  - apply valid_offgrid_args.
  - simpl. lia.
Defined.

(** ** The recurrences and direct exponentiation *)

(** The loop [for(j=0;j<n;j++) buf[j] = f(j)] on a buffer of [n] cells. *)
Lemma store_loop (f : Z → R) (n : nat) (buf : list R) :
  length buf = n →
  iterate 1 n 0 (λ j b, store b j (f j)) buf = Some (f <$> seqZ 0 (Z.of_nat n)).
Proof.
  intros Hlen.
  destruct (iterate_invariant (λ c b,
    length b = length buf ∧
    ∀ k, 0 ≤ k →
      load b k = if decide (k < Z.of_nat c) then Some (f k) else load buf k)
    1 n 0 (λ j b, store b j (f j)) buf)
    as (b & Hb & Hl & Hcells).
  { split; [done|]. intros k Hk. by rewrite decide_False by lia. }
  { intros c b Hc (Hl & Hcells).
    replace (0 + Z.of_nat c * 1) with (Z.of_nat c) by lia.
    destruct (store b (Z.of_nat c) (f (Z.of_nat c))) as [b'|] eqn:Hst.
    2:{ rewrite store_in_range in Hst by lia. done. }
    exists b'. split; [done|]. split.
    - by rewrite (length_store _ _ _ _ Hst).
    - intros k Hk. destruct (decide (k = Z.of_nat c)) as [->|Hne].
      + rewrite (load_store_eq _ _ _ _ Hst).
        by rewrite decide_True by lia.
      + rewrite (load_store_ne _ _ _ _ _ Hst), Hcells by done.
        repeat case_decide; (done || lia). }
  rewrite Hb. f_equal. apply load_ext. intros k Hk. rewrite Hcells by done.
  rewrite (load_lookup (f <$> _)) by done. rewrite list_lookup_fmap.
  case_decide.
  - rewrite lookup_seqZ_lt by lia. simpl. do 2 f_equal. lia.
  - rewrite lookup_seqZ_ge by lia. simpl.
    rewrite load_lookup by done. apply lookup_ge_None_2. lia.
Qed.

Lemma pow_fill_weight_seq (M_sp : Z) (dx dy dz : R) (s : state) :
  length (E_2x s) = Z.to_nat (2 * M_sp) →
  length (E_2y s) = Z.to_nat (2 * M_sp) →
  length (E_2z s) = Z.to_nat (2 * M_sp) →
  pow_fill M_sp dx dy dz s =
  Some (set_E_2 (weight_seq M_sp dx) (weight_seq M_sp dy) (weight_seq M_sp dz) s).
Proof.
  intros Hx Hy Hz. unfold pow_fill, for_below. rewrite iterate_on_E_2.
  replace (2 * M_sp - 0) with (2 * M_sp) by lia.
  rewrite (store_loop (λ j, powerRZ dx (j - M_sp + 1))) by done.
  rewrite (store_loop (λ j, powerRZ dy (j - M_sp + 1))) by done.
  rewrite (store_loop (λ j, powerRZ dz (j - M_sp + 1))) by done.
  simpl. unfold weight_seq.
  destruct (decide (0 ≤ 2 * M_sp)).
  - by rewrite Z2Nat.id by done.
  - by rewrite !(seqZ_nil _ (2 * M_sp)), !seqZ_nil by lia.
Qed.

(** C4. For nonzero ratios, on scratch buffers of [2*M_sp] cells whose
    central slot holds the seed 1, the forward and backward recurrences
    leave exactly what the loop calling [pow] for every slot leaves, and
    the slot for every offset [l] of [1-M_sp .. M_sp] holds the ratio to
    the power [l]. *)
Theorem C4_recurrences_equal_pow (M_sp : Z) (dx dy dz : R) (s : state) :
  1 ≤ M_sp → dx ≠ 0%R → dy ≠ 0%R → dz ≠ 0%R →
  length (E_2x s) = Z.to_nat (2 * M_sp) →
  length (E_2y s) = Z.to_nat (2 * M_sp) →
  length (E_2z s) = Z.to_nat (2 * M_sp) →
  load (E_2x s) (M_sp - 1) = Some 1%R →
  load (E_2y s) (M_sp - 1) = Some 1%R →
  load (E_2z s) (M_sp - 1) = Some 1%R →
  ∃ s', fill_E_2 M_sp dx dy dz s = Some s' ∧
    pow_fill M_sp dx dy dz s = Some s' ∧
    ∀ l, 1 - M_sp ≤ l ≤ M_sp →
      load (E_2x s') (M_sp + l - 1) = Some (powerRZ dx l) ∧
      load (E_2y s') (M_sp + l - 1) = Some (powerRZ dy l) ∧
      load (E_2z s') (M_sp + l - 1) = Some (powerRZ dz l).
Proof.
  intros HM _ _ _ Hlx Hly Hlz Hx Hy Hz. eexists. split_and!.
  - by apply fill_E_2_weight_seq.
  - by apply pow_fill_weight_seq.
  - intros l Hl. simpl. rewrite !load_weight_seq by lia.
    by replace (M_sp + l - 1 - M_sp + 1) with l by lia.
Qed.

Lemma C4_witness :
  ∃ s', fill_E_2 2 2 3 5 seeded_sample = Some s' ∧
    pow_fill 2 2 3 5 seeded_sample = Some s' ∧
    ∀ l, 1 - 2 ≤ l ≤ 2 →
      load (E_2x s') (2 + l - 1) = Some (powerRZ 2 l) ∧
      load (E_2y s') (2 + l - 1) = Some (powerRZ 3 l) ∧
      load (E_2z s') (2 + l - 1) = Some (powerRZ 5 l).
Proof.
  apply (C4_recurrences_equal_pow 2 2 3 5 seeded_sample);
    (lia || lra || reflexivity).
Defined.

(** ** What the recurrences leave untouched *)

(** A loop on one buffer whose iterations write only the slot of the loop
    variable changes only the slots the loop variable visits. *)
Lemma iterate_frame (body : Z → list R → option (list R)) (step : Z)
    (n : nat) (j : Z) (buf buf' : list R) (k : Z) :
  (∀ j b b', body j b = Some b' → k ≠ j → load b' k = load b k) →
  iterate step n j body buf = Some buf' →
  (∀ c, (c < n)%nat → k ≠ j + Z.of_nat c * step) →
  load buf' k = load buf k.
Proof.
  intros Hbody. revert j buf. induction n as [|n IH]; intros j buf Hit Hk.
  - by injection Hit as ->.
  - rewrite iterate_S in Hit.
    destruct (body j buf) as [b1|] eqn:Hb; [|done]. cbn -[iterate] in Hit.
    rewrite (IH _ _ Hit).
    + apply (Hbody _ _ _ Hb). specialize (Hk O). lia.
    + intros c Hc. specialize (Hk (Datatypes.S c)). lia.
Qed.

Lemma recur_fwd_frame (d : R) (j : Z) (b b' : list R) (k : Z) :
  recur_fwd d j b = Some b' → k ≠ j → load b' k = load b k.
Proof.
  unfold recur_fwd. destruct (load b (j - 1)) as [v|]; [|done]. simpl.
  intros Hst Hk. by apply (load_store_ne _ _ _ _ _ Hst).
Qed.

Lemma recur_bwd_frame (d : R) (j : Z) (b b' : list R) (k : Z) :
  recur_bwd d j b = Some b' → k ≠ j → load b' k = load b k.
Proof.
  unfold recur_bwd. destruct (load b (j + 1)) as [v|]; [|done]. simpl.
  intros Hst Hk. by apply (load_store_ne _ _ _ _ _ Hst).
Qed.

(** The same for a loop over the three scratch buffers. *)
Lemma iterate_on_E_2_frame (fx fy fz : Z → list R → option (list R))
    (step : Z) (n : nat) (j : Z) (s s' : state) (k : Z) :
  (∀ j b b', fx j b = Some b' → k ≠ j → load b' k = load b k) →
  (∀ j b b', fy j b = Some b' → k ≠ j → load b' k = load b k) →
  (∀ j b b', fz j b = Some b' → k ≠ j → load b' k = load b k) →
  iterate step n j (on_E_2 fx fy fz) s = Some s' →
  (∀ c, (c < n)%nat → k ≠ j + Z.of_nat c * step) →
  load (E_2x s') k = load (E_2x s) k ∧
  load (E_2y s') k = load (E_2y s) k ∧
  load (E_2z s') k = load (E_2z s) k.
Proof.
  intros Hx Hy Hz Hit Hk. rewrite iterate_on_E_2 in Hit.
  destruct (iterate step n j fx (E_2x s)) as [bx|] eqn:Ex; [|done].
  destruct (iterate step n j fy (E_2y s)) as [by_|] eqn:Ey; [|done].
  destruct (iterate step n j fz (E_2z s)) as [bz|] eqn:Ez; [|done].
  injection Hit as <-. simpl.
  split_and!.
  - by apply (iterate_frame fx step n j).
  - by apply (iterate_frame fy step n j).
  - by apply (iterate_frame fz step n j).
Qed.

(** C5. In the stated domain, the central slot (index [M_sp-1], offset 0)
    of each of [E_2x], [E_2y], [E_2z] holds 1 before the first knot and
    after every knot; the forward loop changes no slot outside
    [M_sp .. 2*M_sp-1] and the backward loop no slot outside
    [0 .. M_sp-2], so neither touches the central slot. *)
Theorem C5_central_tap_is_one (a : mex_args) (gx gy gz : list R) :
  valid a →
  (∀ dx dy dz s s' k,
     for_below (M_sp (Scales a)) (2 * M_sp (Scales a))
       (on_E_2 (recur_fwd dx) (recur_fwd dy) (recur_fwd dz)) s = Some s' →
     ¬ (M_sp (Scales a) ≤ k ≤ 2 * M_sp (Scales a) - 1) →
     load (E_2x s') k = load (E_2x s) k ∧
     load (E_2y s') k = load (E_2y s) k ∧
     load (E_2z s') k = load (E_2z s) k) ∧
  (∀ dx dy dz s s' k,
     for_downto (M_sp (Scales a) - 2) 0
       (on_E_2 (recur_bwd dx) (recur_bwd dy) (recur_bwd dz)) s = Some s' →
     ¬ (0 ≤ k ≤ M_sp (Scales a) - 2) →
     load (E_2x s') k = load (E_2x s) k ∧
     load (E_2y s') k = load (E_2y s) k ∧
     load (E_2z s') k = load (E_2z s) k) ∧
  (∀ k : nat, Z.of_nat k ≤ M a →
     ∃ s, after_knots a gx gy gz k = Some s ∧
       load (E_2x s) (M_sp (Scales a) - 1) = Some 1%R ∧
       load (E_2y s) (M_sp (Scales a) - 1) = Some 1%R ∧
       load (E_2z s) (M_sp (Scales a) - 1) = Some 1%R).
Proof.
  intros Hv. split_and!.
  - intros dx dy dz s s' k Hit Hk.
    unfold for_below in Hit.
    apply (iterate_on_E_2_frame _ _ _ _ _ _ _ _ k
             (λ j b b', recur_fwd_frame dx j b b' k)
             (λ j b b', recur_fwd_frame dy j b b' k)
             (λ j b b', recur_fwd_frame dz j b b' k) Hit).
    intros c Hc. lia.
  - intros dx dy dz s s' k Hit Hk.
    unfold for_downto in Hit.
    apply (iterate_on_E_2_frame _ _ _ _ _ _ _ _ k
             (λ j b b', recur_bwd_frame dx j b b' k)
             (λ j b b', recur_bwd_frame dy j b b' k)
             (λ j b b', recur_bwd_frame dz j b b' k) Hit).
    intros c Hc. lia.
  - intros k Hk. exists (state_after a gx gy gz k). split.
    + apply after_knots_state; [by apply valid_in_bounds|done].
    + apply (seeded_state_after a gx gy gz (valid_in_bounds a Hv) k).
Qed.

Lemma C5_witness :
  (∀ dx dy dz s s' k,
     for_below (M_sp (Scales sample_args)) (2 * M_sp (Scales sample_args))
       (on_E_2 (recur_fwd dx) (recur_fwd dy) (recur_fwd dz)) s = Some s' →
     ¬ (M_sp (Scales sample_args) ≤ k ≤ 2 * M_sp (Scales sample_args) - 1) →
     load (E_2x s') k = load (E_2x s) k ∧
     load (E_2y s') k = load (E_2y s) k ∧
     load (E_2z s') k = load (E_2z s) k) ∧
  (∀ dx dy dz s s' k,
     for_downto (M_sp (Scales sample_args) - 2) 0
       (on_E_2 (recur_bwd dx) (recur_bwd dy) (recur_bwd dz)) s = Some s' →
     ¬ (0 ≤ k ≤ M_sp (Scales sample_args) - 2) →
     load (E_2x s') k = load (E_2x s) k ∧
     load (E_2y s') k = load (E_2y s) k ∧
     load (E_2z s') k = load (E_2z s) k) ∧
  (∀ k : nat, Z.of_nat k ≤ M sample_args →
     ∃ s, after_knots sample_args [] [] [] k = Some s ∧
       load (E_2x s) (M_sp (Scales sample_args) - 1) = Some 1%R ∧
       load (E_2y s) (M_sp (Scales sample_args) - 1) = Some 1%R ∧
       load (E_2z s) (M_sp (Scales sample_args) - 1) = Some 1%R).
Proof.
  apply (C5_central_tap_is_one sample_args [] [] []).
  apply valid_sample_args.
Defined.

(** ** Linearity in the grid *)

Lemma rd_scale (c : R) (g : list R) (k : Z) :
  rd (Rmult c <$> g) k = (c * rd g k)%R.
Proof.
  unfold rd, load. case_decide; simpl; [|lra].
  rewrite list_lookup_fmap. destruct (g !! Z.to_nat k); simpl; lra.
Qed.

Lemma rd_opp (g : list R) (k : Z) : rd (Ropp <$> g) k = (- rd g k)%R.
Proof.
  unfold rd, load. case_decide; simpl; [|lra].
  rewrite list_lookup_fmap. destruct (g !! Z.to_nat k); simpl; lra.
Qed.

Lemma rd_plus (f g : list R) (k : Z) :
  length f = length g → rd (zip_with Rplus f g) k = (rd f k + rd g k)%R.
Proof.
  intros Hlen. unfold rd, load. case_decide; simpl; [|lra].
  rewrite lookup_zip_with.
  destruct (f !! Z.to_nat k) as [x|] eqn:Ef; simpl.
  - destruct (lookup_lt_is_Some_2 g (Z.to_nat k)) as [y ->]; [|done].
    rewrite <- Hlen. by apply lookup_lt_Some in Ef.
  - rewrite (lookup_ge_None_2 g); [simpl; lra|].
    rewrite <- Hlen. by apply lookup_ge_None_1.
Qed.

Lemma rd_all_zero (g : list R) (k : Z) :
  (∀ v, v ∈ g → v = 0%R) → rd g k = 0%R.
Proof.
  intros Hz. unfold rd, load. case_decide; [|done].
  destruct (g !! Z.to_nat k) as [v|] eqn:E; [|done]. simpl.
  apply Hz. by apply list_elem_of_lookup_2 in E.
Qed.

(** The triple sum is linear in the samples. *)
Lemma triple_sum_lin (a : mex_args) (bx by_ bz g1 g2 g3 : list R)
    (α β V0r : R) (m1 m2 m3 : Z) :
  (∀ k, rd g3 k = (α * rd g1 k + β * rd g2 k)%R) →
  triple_sum a bx by_ bz g3 V0r m1 m2 m3
  = (α * triple_sum a bx by_ bz g1 V0r m1 m2 m3
     + β * triple_sum a bx by_ bz g2 V0r m1 m2 m3)%R.
Proof.
  intros Hg. unfold triple_sum.
  rewrite <- Rsum_lin. apply Rsum_ext. intros l3 _.
  rewrite <- Rsum_lin. apply Rsum_ext. intros l2 _.
  rewrite <- Rsum_lin. apply Rsum_ext. intros l1 _.
  unfold term. rewrite Hg. ring.
Qed.

Lemma engine_out_lin (a : mex_args) (g1 g2 g3 : list R) (α β : R) :
  (∀ k, rd g3 k = (α * rd g1 k + β * rd g2 k)%R) →
  engine_out a g3
  = (λ i, α * knot_value a g1 i + β * knot_value a g2 i)%R <$> seqZ 0 (M a).
Proof.
  intros Hg. unfold engine_out. apply list_fmap_ext. intros _ i _.
  unfold knot_value, knot_sum. cbn zeta. by apply triple_sum_lin.
Qed.

Lemma engine_out_scale (a : mex_args) (g : list R) (c : R) :
  engine_out a (Rmult c <$> g) = Rmult c <$> engine_out a g.
Proof.
  rewrite (engine_out_lin a g g _ c 0).
  - unfold engine_out. rewrite <- list_fmap_compose.
    apply list_fmap_ext. intros _ i _. simpl. lra.
  - intros k. rewrite rd_scale. lra.
Qed.

Lemma engine_out_opp (a : mex_args) (g : list R) :
  engine_out a (Ropp <$> g) = Ropp <$> engine_out a g.
Proof.
  rewrite (engine_out_lin a g g _ (-1) 0).
  - unfold engine_out. rewrite <- list_fmap_compose.
    apply list_fmap_ext. intros _ i _. simpl. lra.
  - intros k. rewrite rd_opp. lra.
Qed.

Lemma zip_with_plus_fmap {A : Type} (f g : A → R) (l : list A) :
  zip_with Rplus (f <$> l) (g <$> l) = (λ x, f x + g x)%R <$> l.
Proof.
  induction l as [|x l IH]; [done|].
  rewrite !fmap_cons. cbn [zip_with]. by rewrite IH.
Qed.

Lemma engine_out_plus (a : mex_args) (f g : list R) :
  length f = length g →
  engine_out a (zip_with Rplus f g)
  = zip_with Rplus (engine_out a f) (engine_out a g).
Proof.
  intros Hlen. rewrite (engine_out_lin a f g _ 1 1).
  - unfold engine_out. rewrite zip_with_plus_fmap.
    apply list_fmap_ext. intros _ i _. lra.
  - intros k. rewrite rd_plus by done. lra.
Qed.

Lemma engine_out_all_zero (a : mex_args) (g : list R) (i : Z) :
  (∀ v, v ∈ g → v = 0%R) → knot_value a g i = 0%R.
Proof.
  intros Hz. unfold knot_value, knot_sum. cbn zeta.
  rewrite (triple_sum_lin a _ _ _ g g g 0 0); [lra|].
  intros k. rewrite rd_all_zero by done. lra.
Qed.

Lemma valid_with_grid (a : mex_args) (fr fi : list R) :
  valid a → length fr = length (ftaur a) → length fi = length (ftaui a) →
  valid (with_grid a fr fi).
Proof.
  intros Hv Hr Hi. destruct Hv as [[] ? ? ?].
  split; [split| | |]; simpl; try done; congruence.
Qed.

Lemma mexFunction_with_grid (a : mex_args) (fr fi gx gy gz : list R) :
  valid a → length fr = length (ftaur a) → length fi = length (ftaui a) →
  mexFunction (with_grid a fr fi) gx gy gz
  = Some (engine_out a fr, engine_out a fi).
Proof.
  intros Hv Hr Hi.
  by rewrite mexFunction_value
    by (by apply valid_in_bounds, valid_with_grid).
Qed.

(** C6. With knots, kernel tables and parameters fixed, the run is linear
    in the grid: scaling every sample (real and imaginary) by [c] scales
    every output by [c], and the run on the component-wise sum of two
    grids of the same size returns the component-wise sum of the two
    outputs. *)
Theorem C6_linear_in_grid (a : mex_args) (fr fi : list R) (c : R)
    (gx gy gz hx hy hz : list R) :
  valid a → length fr = length (ftaur a) → length fi = length (ftaui a) →
  ∃ oR oI oR' oI',
    mexFunction a gx gy gz = Some (oR, oI) ∧
    mexFunction (with_grid a fr fi) gx gy gz = Some (oR', oI') ∧
    mexFunction (with_grid a (Rmult c <$> ftaur a) (Rmult c <$> ftaui a))
      hx hy hz
    = Some (Rmult c <$> oR, Rmult c <$> oI) ∧
    mexFunction (with_grid a (zip_with Rplus (ftaur a) fr)
                             (zip_with Rplus (ftaui a) fi)) hx hy hz
    = Some (zip_with Rplus oR oR', zip_with Rplus oI oI').
Proof.
  intros Hv Hr Hi.
  exists (engine_out a (ftaur a)), (engine_out a (ftaui a)),
    (engine_out a fr), (engine_out a fi).
  split_and!.
  - by apply mexFunction_value, valid_in_bounds.
  - by apply mexFunction_with_grid.
  - rewrite mexFunction_with_grid by (done || by rewrite length_fmap).
    by rewrite !engine_out_scale.
  - rewrite mexFunction_with_grid
      by (done || (rewrite length_zip_with; lia)).
    by rewrite !engine_out_plus.
Qed.

Lemma C6_witness :
  ∃ oR oI oR' oI',
    mexFunction sample_args [] [] [] = Some (oR, oI) ∧
    mexFunction (with_grid sample_args (ftaui sample_args) (ftaur sample_args))
      [] [] [] = Some (oR', oI') ∧
    mexFunction (with_grid sample_args (Rmult 3 <$> ftaur sample_args)
                   (Rmult 3 <$> ftaui sample_args)) [] [] []
    = Some (Rmult 3 <$> oR, Rmult 3 <$> oI) ∧
    mexFunction (with_grid sample_args
                   (zip_with Rplus (ftaur sample_args) (ftaui sample_args))
                   (zip_with Rplus (ftaui sample_args) (ftaur sample_args)))
      [] [] []
    = Some (zip_with Rplus oR oR', zip_with Rplus oI oI').
Proof.
  apply (C6_linear_in_grid sample_args (ftaui sample_args) (ftaur sample_args)
           3 [] [] [] [] [] []).
  - apply valid_sample_args.
  - reflexivity.
  - reflexivity.
Defined.



(** ** Independence of the knots *)

(** The value of a knot depends on the run through the grid, the tables,
    the parameters and the coordinates of that knot only. *)
Lemma knot_value_same_knot (a b : mex_args) (grid : list R) (i j : Z) :
  same_setup a b → same_knot a b i j →
  knot_value a grid i = knot_value b grid j.
Proof.
  intros (_ & _ & Ex & Ey & Ez & Es) (Hx & Hy & Hz).
  unfold knot_value. rewrite Hx, Hy, Hz.
  unfold knot_sum, triple_sum, term, linear. by rewrite Ex, Ey, Ez, Es.
Qed.

Lemma valid_pair_args : valid pair_args.
Proof.
  split; [split| | |]; simpl; try lia; try lra; try reflexivity;
    try (by exists 2).
  unfold PI. repeat constructor; lra.
Qed.

Lemma valid_swapped_args : valid swapped_args.
Proof.
  split; [split| | |]; simpl; try lia; try lra; try reflexivity;
    try (by exists 2).
  unfold PI. repeat constructor; lra.
Qed.

(** C9. Take two runs in the stated domain over the same grid, tables and
    parameters.  A knot that is at the same place in both gets the same
    output in both, whatever the other knots are; and when the knots of
    the second run are those of the first rearranged by [σ], its outputs
    are those of the first rearranged by [σ]. *)
Theorem C9_knots_are_independent (a b : mex_args) (gx gy gz hx hy hz : list R) :
  valid a → valid b → same_setup a b →
  ∃ oRa oIa oRb oIb,
    mexFunction a gx gy gz = Some (oRa, oIa) ∧
    mexFunction b hx hy hz = Some (oRb, oIb) ∧
    (M a = M b → ∀ i, 0 ≤ i < M a → same_knot a b i i →
       load oRa i = load oRb i ∧ load oIa i = load oIb i) ∧
    (∀ σ : Z → Z,
       (∀ j, 0 ≤ j < M b → 0 ≤ σ j < M a ∧ same_knot a b (σ j) j) →
       ∀ j, 0 ≤ j < M b →
         load oRb j = load oRa (σ j) ∧ load oIb j = load oIa (σ j)).
Proof.
  intros Ha Hb Hs. pose proof Hs as (Er & Ei & _).
  exists (engine_out a (ftaur a)), (engine_out a (ftaui a)),
    (engine_out b (ftaur b)), (engine_out b (ftaui b)).
  split_and!.
  - by apply mexFunction_value, valid_in_bounds.
  - by apply mexFunction_value, valid_in_bounds.
  - intros HM i Hi Hk. rewrite !load_engine_out by lia.
    rewrite <- Er, <- Ei. by rewrite !(knot_value_same_knot a b _ i i).
  - intros σ Hσ j Hj. destruct (Hσ j Hj) as [Hi Hk].
    rewrite !load_engine_out by lia.
    rewrite <- Er, <- Ei. by rewrite !(knot_value_same_knot a b _ (σ j) j).
Qed.

Lemma C9_witness :
  ∃ oRa oIa oRb oIb,
    mexFunction pair_args [] [] [] = Some (oRa, oIa) ∧
    mexFunction swapped_args [] [] [] = Some (oRb, oIb) ∧
    (load oRb 0 = load oRa 1 ∧ load oIb 0 = load oIa 1) ∧
    (load oRb 1 = load oRa 0 ∧ load oIb 1 = load oIa 0).
Proof.
  destruct (C9_knots_are_independent pair_args swapped_args
              [] [] [] [] [] [])
    as (oRa & oIa & oRb & oIb & Ha & Hb & _ & Hperm).
  - apply valid_pair_args.
  - apply valid_swapped_args.
  - repeat split.
  - exists oRa, oIa, oRb, oIb. split; [exact Ha|]. split; [exact Hb|].
    assert (Hswap : ∀ j, 0 ≤ j < M swapped_args →
      0 ≤ 1 - j < M pair_args ∧ same_knot pair_args swapped_args (1 - j) j).
    { intros j Hj. simpl in Hj. assert (Hc : j = 0 ∨ j = 1) by lia.
      destruct Hc as [-> | ->]; (split; [simpl; lia|repeat split]). }
    split.
    + apply (Hperm (λ j, 1 - j) Hswap 0). simpl. lia.
    + apply (Hperm (λ j, 1 - j) Hswap 1). simpl. lia.
Defined.

(** ** Grids with one nonzero sample *)

(** When the grid is zero away from the cell that the offsets
    [(l1,l2,l3)] reach, the triple sum is the term of these offsets. *)
Lemma triple_sum_impulse (a : mex_args) (bx by_ bz grid : list R) (V0r : R)
    (m1 m2 m3 l1 l2 l3 : Z) :
  valid a →
  0 ≤ m1 < M_rx (Scales a) → 0 ≤ m2 < M_ry (Scales a) →
  0 ≤ m3 < M_rz (Scales a) →
  1 - M_sp (Scales a) ≤ l1 ≤ M_sp (Scales a) →
  1 - M_sp (Scales a) ≤ l2 ≤ M_sp (Scales a) →
  1 - M_sp (Scales a) ≤ l3 ≤ M_sp (Scales a) →
  (∀ k, k ≠ linear a (wrapped (M_rx (Scales a)) m1 l1)
                     (wrapped (M_ry (Scales a)) m2 l2)
                     (wrapped (M_rz (Scales a)) m3 l3) → rd grid k = 0%R) →
  triple_sum a bx by_ bz grid V0r m1 m2 m3
  = term a bx by_ bz grid V0r m1 m2 m3 l1 l2 l3.
Proof.
  intros Hv Hm1 Hm2 Hm3 H1 H2 H3 Hz.
  assert (Hterm : ∀ k1 k2 k3,
    1 - M_sp (Scales a) ≤ k1 ≤ M_sp (Scales a) →
    1 - M_sp (Scales a) ≤ k2 ≤ M_sp (Scales a) →
    1 - M_sp (Scales a) ≤ k3 ≤ M_sp (Scales a) →
    ¬ (k1 = l1 ∧ k2 = l2 ∧ k3 = l3) →
    term a bx by_ bz grid V0r m1 m2 m3 k1 k2 k3 = 0%R).
  { intros k1 k2 k3 K1 K2 K3 Hne. unfold term. rewrite Hz; [ring|].
    intros Heq. apply Hne.
    by apply (window_linear_inj a m1 m2 m3 _ _ _ _ _ _ (v_shape a Hv)). }
  unfold triple_sum.
  rewrite (Rsum_single _ _ l3);
    [|apply NoDup_offsets|by apply elem_of_offsets|].
  2:{ intros k3 K3%elem_of_offsets Hne.
      apply Rsum_zero. intros k2 K2%elem_of_offsets.
      apply Rsum_zero. intros k1 K1%elem_of_offsets.
      apply Hterm; try done. intros (_ & _ & ?). done. }
  rewrite (Rsum_single _ _ l2);
    [|apply NoDup_offsets|by apply elem_of_offsets|].
  2:{ intros k2 K2%elem_of_offsets Hne.
      apply Rsum_zero. intros k1 K1%elem_of_offsets.
      apply Hterm; try done. intros (_ & ? & _). done. }
  rewrite (Rsum_single _ _ l1);
    [done|apply NoDup_offsets|by apply elem_of_offsets|].
  intros k1 K1%elem_of_offsets Hne.
  apply Hterm; try done. intros (? & _ & _). done.
Qed.

(** When the grid is zero at every cell of the window, so is the sum. *)
Lemma triple_sum_miss (a : mex_args) (bx by_ bz grid : list R) (V0r : R)
    (m1 m2 m3 : Z) :
  (∀ l1 l2 l3,
     1 - M_sp (Scales a) ≤ l1 ≤ M_sp (Scales a) →
     1 - M_sp (Scales a) ≤ l2 ≤ M_sp (Scales a) →
     1 - M_sp (Scales a) ≤ l3 ≤ M_sp (Scales a) →
     rd grid (linear a (wrapped (M_rx (Scales a)) m1 l1)
                       (wrapped (M_ry (Scales a)) m2 l2)
                       (wrapped (M_rz (Scales a)) m3 l3)) = 0%R) →
  triple_sum a bx by_ bz grid V0r m1 m2 m3 = 0%R.
Proof.
  intros Hz. unfold triple_sum.
  apply Rsum_zero. intros l3 H3%elem_of_offsets.
  apply Rsum_zero. intros l2 H2%elem_of_offsets.
  apply Rsum_zero. intros l1 H1%elem_of_offsets.
  unfold term. rewrite Hz by done. ring.
Qed.

(** ** A knot on a lattice point *)

Lemma half_extent (N h : Z) : N = 2 * h → N / 2 = h.
Proof. intros ->. by rewrite Z.mul_comm, Z.div_mul. Qed.

Lemma nearest_cell_coordinate (N h c : Z) :
  N = 2 * h → 0 < h →
  nearest N (cell_coordinate N c) = (c + h) mod N.
Proof.
  intros HN Hh. unfold cell_coordinate. rewrite (half_extent N h HN).
  apply nearest_lattice. lia.
Qed.

Lemma subcell_cell_coordinate (N h c : Z) :
  N = 2 * h → 0 < h → subcell N (cell_coordinate N c) = 0%R.
Proof.
  intros HN Hh. unfold subcell.
  rewrite (nearest_cell_coordinate N h) by done.
  unfold cell_coordinate. rewrite (half_extent N h HN).
  assert (IZR N ≠ 0%R) by (apply not_0_IZR; lia).
  field. done.
Qed.

Lemma wrapped_cell_coordinate (N h c : Z) :
  N = 2 * h → 0 < h → 0 ≤ c < N →
  wrapped N (nearest N (cell_coordinate N c)) 0 = c.
Proof.
  intros HN Hh Hc. rewrite (nearest_cell_coordinate N h) by done.
  pose proof (Z.mod_pos_bound (c + h) N ltac:(lia)) as Hm.
  rewrite (wrapped_mod N h) by lia.
  rewrite Z.add_0_r, Zplus_mod_idemp_l.
  replace (c + h + h) with (c + 1 * N) by lia.
  rewrite Z.mod_add by lia. apply Z.mod_small. lia.
Qed.

Lemma E_1_0 (tau : R) : E_1 tau 0 = 1%R.
Proof.
  unfold E_1. replace (- 0 * 0 / (4 * tau))%R with 0%R
    by (unfold Rdiv; ring).
  apply exp_0.
Qed.

Lemma E_2dummy_0 (N : Z) (tau : R) : E_2dummy N tau 0 = 1%R.
Proof.
  unfold E_2dummy. replace (0 * PI / (IZR N * tau))%R with 0%R
    by (unfold Rdiv; ring).
  apply exp_0.
Qed.

(** ** The sample grid *)

Lemma sample_ftaur_impulse (k : Z) :
  k ≠ linear sample_args 2 2 2 → rd (ftaur sample_args) k = 0%R.
Proof.
  intros Hk. unfold rd, load. case_decide; [|done].
  unfold sample_args. cbn [ftaur].
  rewrite list_lookup_insert_ne by (unfold linear in Hk; simpl in Hk; lia).
  destruct (replicate 64 0%R !! Z.to_nat k) as [v|] eqn:E; [|done].
  by apply lookup_replicate in E as [-> _].
Qed.

Lemma sample_ftaui_zero (v : R) : v ∈ ftaui sample_args → v = 0%R.
Proof.
  unfold sample_args. cbn [ftaui]. by intros [-> _]%elem_of_replicate.
Qed.

(** The centre cell of a 4-point axis is at angular coordinate 0. *)
Lemma cell_coordinate_centre : cell_coordinate 4 2 = 0%R.
Proof.
  unfold cell_coordinate. change ((2 + 4 / 2) mod 4) with 0. lra.
Qed.



(** ** The Gaussian identity of the weight sequence *)

Lemma exp_pow_nat (u : R) (n : nat) : pow (exp u) n = exp (INR n * u).
Proof.
  induction n as [|n IH].
  - simpl. rewrite Rmult_0_l. by rewrite exp_0.
  - rewrite S_INR. simpl. rewrite IH, <- exp_plus. f_equal. lra.
Qed.

Lemma powerRZ_exp (u : R) (l : Z) : powerRZ (exp u) l = exp (IZR l * u).
Proof.
  destruct l as [|q|q]; simpl.
  - rewrite Rmult_0_l. by rewrite exp_0.
  - rewrite exp_pow_nat, INR_IPR. done.
  - rewrite exp_pow_nat, INR_IPR, <- exp_Ropp. f_equal.
    change (IZR (Z.neg q)) with (- IPR q)%R. lra.
Qed.

(** The identity of step 3, with the ratio of the source: the central
    factor, the power of the ratio and the knot-independent factor
    multiply to the Gaussian of the distance. *)
Lemma gaussian_identity (N : Z) (tau knot : R) (l : Z) :
  N ≠ 0 → tau ≠ 0%R →
  (E_1 tau (subcell N knot)
   * powerRZ (E_2dummy N tau (subcell N knot)) l
   * gauss_factor N tau l)%R
  = gauss tau (axis_distance N knot l).
Proof.
  intros HN Htau.
  assert (IZR N ≠ 0%R) by (by apply not_0_IZR).
  unfold E_1, E_2dummy, gauss_factor, gauss, axis_distance.
  rewrite powerRZ_exp, <- !exp_plus, subcell_offset by done.
  f_equal. rewrite plus_IZR. field. done.
Qed.

Lemma gauss_pos (tau t : R) : (0 < gauss tau t)%R.
Proof. apply exp_pos. Qed.

(** Farther from the centre the Gaussian is smaller. *)
Lemma gauss_decreasing (tau t t' : R) :
  (0 < tau)%R → (Rabs t <= Rabs t')%R → (gauss tau t' <= gauss tau t)%R.
Proof.
  intros Htau Habs. apply Rsqr_le_abs_1 in Habs. unfold Rsqr in Habs.
  unfold gauss.
  assert (Hle : (- (t' * t') / (4 * tau) <= - (t * t) / (4 * tau))%R).
  { unfold Rdiv. apply Rmult_le_compat_r; [|lra].
    apply Rlt_le, Rinv_0_lt_compat. lra. }
  destruct Hle as [Hlt| ->]; [|lra].
  apply Rlt_le. by apply exp_increasing.
Qed.

Lemma rd_fmap_offsets (f : Z → R) (M_sp l : Z) :
  1 - M_sp ≤ l ≤ M_sp → rd (f <$> offsets M_sp) (M_sp + l - 1) = f l.
Proof.
  intros Hl. unfold rd, offsets. rewrite load_lookup by lia.
  rewrite list_lookup_fmap, lookup_seqZ_lt by lia. simpl. f_equal. lia.
Qed.

(** ** One nonzero sample and one knot *)

(** The sample is inside the window: the knot gets the sample times the
    Gaussian envelope. *)
Lemma knot_value_in_window (a : mex_args) (grid : list R)
    (i l1 l2 l3 cx cy cz : Z) :
  valid a → gaussian_tables a → 0 ≤ i < M a →
  reaches a i l1 l2 l3 cx cy cz →
  (∀ k, k ≠ linear a cx cy cz → rd grid k = 0%R) →
  knot_value a grid i
  = (envelope a i l1 l2 l3 * rd grid (linear a cx cy cz))%R.
Proof.
  intros Hv Ht Hi ((H1 & <-) & (H2 & <-) & (H3 & <-)) Hz.
  pose proof (valid_nearest_x a Hv i Hi) as Hm1.
  pose proof (valid_nearest_y a Hv i Hi) as Hm2.
  pose proof (valid_nearest_z a Hv i Hi) as Hm3.
  unfold knot_value, knot_sum. cbn zeta.
  rewrite (triple_sum_impulse a _ _ _ _ _ _ _ _ l1 l2 l3) by done.
  unfold term, envelope. rewrite !rd_weight_seq by done.
  destruct (Ht l1 H1) as (-> & _ & _).
  destruct (Ht l2 H2) as (_ & -> & _).
  destruct (Ht l3 H3) as (_ & _ & ->).
  destruct Hv as [[] ? ? ?].
  rewrite <- !gaussian_identity by (lia || lra). ring.
Qed.

(** The sample is outside the window on some axis: the knot gets 0. *)
Lemma knot_value_out_of_window (a : mex_args) (grid : list R)
    (i cx cy cz : Z) :
  valid a → 0 ≤ i < M a →
  0 ≤ cx < M_rx (Scales a) → 0 ≤ cy < M_ry (Scales a) →
  out_of_window a i cx cy cz →
  (∀ k, k ≠ linear a cx cy cz → rd grid k = 0%R) →
  knot_value a grid i = 0%R.
Proof.
  intros Hv Hi Hcx Hcy Hout Hz.
  pose proof (valid_nearest_x a Hv i Hi) as Hm1.
  pose proof (valid_nearest_y a Hv i Hi) as Hm2.
  unfold knot_value, knot_sum. cbn zeta.
  apply triple_sum_miss. intros l1 l2 l3 H1 H2 H3. apply Hz.
  intros Heq. destruct Hv as [[] ? ? ?].
  apply linear_inj in Heq as (Ex & Ey & Ez);
    try done; try (apply (window_range _ (M_sp (Scales a))); done).
  destruct Hout as [Hx|[Hy|Hz']].
  - by apply (Hx l1).
  - by apply (Hy l2).
  - by apply (Hz' l3).
Qed.

Lemma rd_engine_out (a : mex_args) (grid : list R) (i : Z) :
  0 ≤ i < M a → rd (engine_out a grid) i = knot_value a grid i.
Proof. intros Hi. unfold rd. by rewrite load_engine_out. Qed.

Lemma envelope_pos (a : mex_args) (i l1 l2 l3 : Z) :
  (0 < envelope a i l1 l2 l3)%R.
Proof.
  unfold envelope. repeat apply Rmult_lt_0_compat; apply gauss_pos.
Qed.

(** A knot that is farther from the sample on every axis has the smaller
    envelope. *)
Lemma envelope_decreasing (a : mex_args) (i j l1 l2 l3 k1 k2 k3 : Z) :
  valid a →
  (Rabs (axis_distance (M_rx (Scales a)) (knot_x a i) l1)
   <= Rabs (axis_distance (M_rx (Scales a)) (knot_x a j) k1))%R →
  (Rabs (axis_distance (M_ry (Scales a)) (knot_y a i) l2)
   <= Rabs (axis_distance (M_ry (Scales a)) (knot_y a j) k2))%R →
  (Rabs (axis_distance (M_rz (Scales a)) (knot_z a i) l3)
   <= Rabs (axis_distance (M_rz (Scales a)) (knot_z a j) k3))%R →
  (envelope a j k1 k2 k3 <= envelope a i l1 l2 l3)%R.
Proof.
  intros Hv Hx Hy Hz. destruct Hv as [[] ? ? ?]. unfold envelope.
  repeat apply Rmult_le_compat;
    try (apply Rlt_le, gauss_pos);
    try (apply Rlt_le, Rmult_lt_0_compat; apply gauss_pos);
    by apply gauss_decreasing.
Qed.

Lemma gauss_strictly_decreasing (tau t t' : R) :
  (0 < tau)%R → (Rabs t < Rabs t')%R → (gauss tau t' < gauss tau t)%R.
Proof.
  intros Htau Habs. unfold gauss. apply exp_increasing.
  assert (Hsq : (t * t < t' * t')%R).
  { apply Rsqr_lt_abs_1 in Habs. by unfold Rsqr in Habs. }
  unfold Rdiv. apply Rmult_lt_compat_r; [|lra].
  apply Rinv_0_lt_compat. lra.
Qed.

Lemma Rmult_lt_le_pos (x x' y y' : R) :
  (0 < x')%R → (0 < y')%R → (x' < x)%R → (y' <= y)%R → (x' * y' < x * y)%R.
Proof. intros. nra. Qed.

Lemma Rmult_le_lt_pos (x x' y y' : R) :
  (0 < x')%R → (0 < y')%R → (x' <= x)%R → (y' < y)%R → (x' * y' < x * y)%R.
Proof. intros. nra. Qed.

(** Strictly farther on one axis, the envelope is strictly smaller. *)
Lemma envelope_strictly_decreasing (a : mex_args)
    (i j l1 l2 l3 k1 k2 k3 : Z) :
  valid a →
  (Rabs (axis_distance (M_rx (Scales a)) (knot_x a i) l1)
   <= Rabs (axis_distance (M_rx (Scales a)) (knot_x a j) k1))%R →
  (Rabs (axis_distance (M_ry (Scales a)) (knot_y a i) l2)
   <= Rabs (axis_distance (M_ry (Scales a)) (knot_y a j) k2))%R →
  (Rabs (axis_distance (M_rz (Scales a)) (knot_z a i) l3)
   <= Rabs (axis_distance (M_rz (Scales a)) (knot_z a j) k3))%R →
  (Rabs (axis_distance (M_rx (Scales a)) (knot_x a i) l1)
   < Rabs (axis_distance (M_rx (Scales a)) (knot_x a j) k1))%R ∨
  (Rabs (axis_distance (M_ry (Scales a)) (knot_y a i) l2)
   < Rabs (axis_distance (M_ry (Scales a)) (knot_y a j) k2))%R ∨
  (Rabs (axis_distance (M_rz (Scales a)) (knot_z a i) l3)
   < Rabs (axis_distance (M_rz (Scales a)) (knot_z a j) k3))%R →
  (envelope a j k1 k2 k3 < envelope a i l1 l2 l3)%R.
Proof.
  intros Hv Hx Hy Hz Hstrict. destruct Hv as [[] ? ? ?]. unfold envelope.
  pose proof (gauss_decreasing _ _ _ v_taux0 Hx) as Gx.
  pose proof (gauss_decreasing _ _ _ v_tauy0 Hy) as Gy.
  pose proof (gauss_decreasing _ _ _ v_tauz0 Hz) as Gz.
  destruct Hstrict as [Sx|[Sy|Sz]].
  - apply (gauss_strictly_decreasing _ _ _ v_taux0) in Sx.
    apply Rmult_lt_le_pos; try apply gauss_pos; try done.
    + apply Rmult_lt_0_compat; apply gauss_pos.
    + apply Rmult_lt_le_pos; try apply gauss_pos; done.
  - apply (gauss_strictly_decreasing _ _ _ v_tauy0) in Sy.
    apply Rmult_lt_le_pos; try apply gauss_pos; try done.
    + apply Rmult_lt_0_compat; apply gauss_pos.
    + apply Rmult_le_lt_pos; try apply gauss_pos; done.
  - apply (gauss_strictly_decreasing _ _ _ v_tauz0) in Sz.
    apply Rmult_le_lt_pos; try apply gauss_pos; try done.
    + apply Rmult_lt_0_compat; apply gauss_pos.
    + repeat apply Rmult_le_compat; try (apply Rlt_le, gauss_pos); done.
Qed.


(** The narrow run: knots 0 and 1 reach the impulse cell (2,2,2) at
    offset 0, knot 2 does not reach it. *)
Lemma valid_narrow_args : valid narrow_args.
Proof.
  split; [split| | |]; simpl; try lia; try lra; try reflexivity;
    try (by exists 2).
  unfold PI. repeat constructor; lra.
Qed.

Lemma gaussian_tables_narrow_args : gaussian_tables narrow_args.
Proof.
  intros l Hl. split_and!; apply (rd_fmap_offsets (gauss_factor 4 1) 1 l Hl).
Qed.

Lemma nearest_4_0 : nearest 4 0 = 0.
Proof.
  unfold nearest. symmetry. apply Int_part_spec.
  replace (4 * 0 / (2 * PI))%R with 0%R by (unfold Rdiv; ring). lra.
Qed.

Lemma reaches_narrow_0 : reaches narrow_args 0 0 0 0 2 2 2.
Proof.
  unfold reaches.
  change (knot_x narrow_args 0) with 0%R. change (knot_y narrow_args 0) with 0%R.
  change (knot_z narrow_args 0) with 0%R.
  cbn [M_sp M_rx M_ry M_rz Scales narrow_args narrow_scales].
  rewrite nearest_4_0. repeat split; lia.
Qed.

Lemma reaches_narrow_1 : reaches narrow_args 1 0 0 0 2 2 2.
Proof.
  unfold reaches.
  change (knot_x narrow_args 1) with 1%R. change (knot_y narrow_args 1) with 1%R.
  change (knot_z narrow_args 1) with 1%R.
  cbn [M_sp M_rx M_ry M_rz Scales narrow_args narrow_scales].
  rewrite nearest_4_1. repeat split; lia.
Qed.

Lemma out_of_window_narrow_2 : out_of_window narrow_args 2 2 2 2.
Proof.
  left. change (knot_x narrow_args 2) with (IZR 2 * (2 * PI / IZR 4))%R.
  cbn [M_sp M_rx Scales narrow_args narrow_scales].
  rewrite nearest_lattice by lia. intros l Hl.
  assert (Hc : l = 0 ∨ l = 1) by lia. by destruct Hc as [-> | ->].
Qed.

Lemma narrow_distances :
  axis_distance 4 0 0 = 0%R ∧ axis_distance 4 1 0 = 1%R.
Proof.
  unfold axis_distance. rewrite nearest_4_0, nearest_4_1.
  change (IZR (0 + 0)) with 0%R. split; ring.
Qed.


(** * Further properties of the source *)

(** ** The boundary tests *)

(** X1. On an even extent [M_r = 2*h] the index the boundary tests compute
    is inside the axis exactly when the candidate [m+l] is in
    [[-3*h, 3*h)]: one extent of slack on either side of the axis centred
    on 0, and not more. *)
Theorem X1_wrapped_in_axis_iff (M_r h m l : Z) :
  M_r = 2 * h → 0 < h →
  0 ≤ wrapped M_r m l < M_r ↔ - 3 * h ≤ m + l < 3 * h.
Proof.
  intros HN Hh.
  destruct (wrapped_cases M_r h m l HN Hh) as [[? ->]|[[? ->]|[? ->]]]; lia.
Qed.

Lemma X1_witness :
  0 ≤ wrapped 4 3 2 < 4 ↔ - 3 * 2 ≤ 3 + 2 < 3 * 2.
Proof. apply (X1_wrapped_in_axis_iff 4 2 3 2); lia. Defined.

(** X2. Inside that range the computed index is the periodic one,
    [(m + l + h) mod M_r], so two offsets one extent apart read the same
    cell: a window wider than the axis sums cells twice. *)
Theorem X2_wrapped_is_periodic (M_r h m l : Z) :
  M_r = 2 * h → 0 < h → - 3 * h ≤ m + l → m + l + M_r < 3 * h →
  wrapped M_r m l = (m + l + h) mod M_r ∧
  wrapped M_r m (l + M_r) = wrapped M_r m l.
Proof.
  intros HN Hh Hlo Hhi.
  rewrite !(wrapped_mod M_r h) by lia. split; [done|].
  replace (m + (l + M_r) + h) with (m + l + h + 1 * M_r) by lia.
  apply Z.mod_add. lia.
Qed.

Lemma X2_witness :
  wrapped 2 0 (-1) = (0 + -1 + 1) mod 2 ∧
  wrapped 2 0 (-1 + 2) = wrapped 2 0 (-1).
Proof. apply (X2_wrapped_is_periodic 2 1 0 (-1)); lia. Defined.

(** X3. When the window is as wide as the axis, [2*M_sp = M_r], its
    offsets reach every cell of the axis exactly once, from whatever
    lattice point of the axis it starts. *)
Theorem X3_full_window_covers_axis (M_r M_sp m : Z) :
  1 ≤ M_sp → M_r = 2 * M_sp → 0 ≤ m < M_r →
  wrapped M_r m <$> offsets M_sp ≡ₚ seqZ 0 M_r.
Proof.
  intros HM HN Hm.
  assert (Heven : Z.Even M_r) by (by exists M_sp).
  apply submseteq_length_Permutation.
  - apply NoDup_submseteq.
    + apply NoDup_fmap_2_strong; [|apply NoDup_offsets].
      intros l l' Hl%elem_of_offsets Hl'%elem_of_offsets.
      apply (window_inj M_r M_sp m); (done || lia).
    + intros c (l & -> & Hl%elem_of_offsets)%list_elem_of_fmap.
      apply elem_of_seqZ.
      pose proof (window_range M_r M_sp m l HM Heven ltac:(lia) Hm Hl). lia.
  - rewrite length_fmap, length_offsets, length_seqZ. lia.
Qed.

Lemma X3_witness : wrapped 4 3 <$> offsets 2 ≡ₚ seqZ 0 4.
Proof. apply (X3_full_window_covers_axis 4 2 3); lia. Defined.

(** ** Runs that leave their arrays *)

Lemma load_beyond (a : list R) (i : Z) :
  Z.of_nat (length a) ≤ i → load a i = None.
Proof.
  intros Hi. unfold load. case_decide; [|done].
  apply lookup_ge_None_2. lia.
Qed.

Lemma store_before (a : list R) (i : Z) (v : R) : i < 0 → store a i v = None.
Proof. intros Hi. unfold store. by rewrite decide_False by lia. Qed.

(** A loop one of whose iterations fails in every state fails. *)
Lemma iterate_fails {S : Type} (step : Z) (n : nat) (j : Z)
    (body : Z → S → option S) (s : S) (c : nat) :
  (c < n)%nat → (∀ s', body (j + Z.of_nat c * step) s' = None) →
  iterate step n j body s = None.
Proof.
  revert j s c. induction n as [|n IH]; intros j s c Hc Hbody; [lia|].
  rewrite iterate_S. destruct c as [|c].
  - replace (j + Z.of_nat 0 * step) with j in Hbody by lia.
    by rewrite Hbody.
  - destruct (body j s) as [s1|]; [|done]. cbn -[iterate].
    apply (IH _ _ c); [lia|]. intros s'.
    replace (j + step + Z.of_nat c * step)
      with (j + Z.of_nat (Datatypes.S c) * step) by lia.
    apply Hbody.
Qed.

Lemma for_upto_fails {S : Type} (lo hi l : Z) (body : Z → S → option S) (s : S) :
  lo ≤ l ≤ hi → (∀ s', body l s' = None) → for_upto lo hi body s = None.
Proof.
  intros Hl Hbody. unfold for_upto.
  apply (iterate_fails _ _ _ _ _ (Z.to_nat (l - lo))); [lia|].
  intros s'. replace (lo + Z.of_nat (Z.to_nat (l - lo)) * 1) with l by lia.
  apply Hbody.
Qed.

(** The preamble succeeds as soon as [M_sp] is at least 1. *)
Lemma mex_init_seeds (a : mex_args) (gx gy gz : list R) :
  1 ≤ M_sp (Scales a) → mex_init a gx gy gz = Some (initial a gx gy gz).
Proof.
  intros HM. unfold mex_init. cbn zeta. rewrite zero_loop by done.
  cbn -[Z.mul Z.sub Z.to_nat].
  rewrite !store_in_range by (unfold malloc; rewrite length_resize; lia).
  unfold initial. by rewrite !partial_out_0.
Qed.

Lemma initial_seeded (a : mex_args) (gx gy gz : list R) :
  1 ≤ M_sp (Scales a) → seeded a (initial a gx gy gz).
Proof.
  intros HM. unfold seeded, initial. simpl.
  rewrite !length_insert. unfold malloc. rewrite !length_resize.
  split_and!; try done;
    (rewrite load_lookup by lia; apply list_lookup_insert_eq;
     rewrite length_resize; lia).
Qed.

Lemma mex_init_fails (a : mex_args) (gx gy gz : list R) :
  M_sp (Scales a) ≤ 0 → mex_init a gx gy gz = None.
Proof.
  intros HM. unfold mex_init. cbn zeta.
  rewrite zero_loop by done. cbn -[Z.mul Z.sub Z.to_nat].
  rewrite (store_before (malloc _ gx)) by lia. reflexivity.
Qed.

(** X4. With a truncation half-width of 0 or less the seeding of the
    central slot, [E_2x[M_sp-1]=1], writes before the start of the scratch
    buffer: the run has no defined result, whatever the other inputs. *)
Theorem X4_nonpositive_M_sp_is_undefined (a : mex_args) (gx gy gz : list R) :
  M_sp (Scales a) ≤ 0 → mexFunction a gx gy gz = None.
Proof.
  intros HM. unfold mexFunction. by rewrite mex_init_fails.
Qed.

Lemma X4_witness :
  mexFunction
    {| ftaur := []; ftaui := []; M := 0; knots := [];
       E_3x := []; E_3y := []; E_3z := [];
       Scales := {| M_sp := 0; taux := 1; tauy := 1; tauz := 1;
                    M_rx := 2; M_ry := 2; M_rz := 2 |} |} [] [] []
  = None.
Proof. apply X4_nonpositive_M_sp_is_undefined. simpl. lia. Defined.

(** X5. With no knot at all ([M = 0]) and [M_sp] at least 1 the run
    returns two empty arrays and reads neither the grid nor the kernel
    tables, so their sizes do not matter. *)
Theorem X5_no_knots_no_output (a : mex_args) (gx gy gz : list R) :
  M a = 0 → 1 ≤ M_sp (Scales a) → mexFunction a gx gy gz = Some ([], []).
Proof.
  intros HM0 HM. unfold mexFunction. rewrite mex_init_seeds by done.
  unfold for_below. rewrite HM0. simpl. unfold partial_out.
  by rewrite HM0.
Qed.

Lemma X5_witness :
  mexFunction
    {| ftaur := []; ftaui := []; M := 0; knots := [];
       E_3x := []; E_3y := []; E_3z := []; Scales := sample_scales |}
    [] [] [] = Some ([], []).
Proof. apply X5_no_knots_no_output; simpl; lia. Defined.

(** X6. The knot matrix must really hold three columns of [M] values.
    With at least one knot and fewer than [3*M] coordinates (for instance
    the matrix flattened to one column, so that [M] counts coordinates)
    the run reads past the end of [knots] and has no defined result. *)
Theorem X6_short_knots_are_undefined (a : mex_args) (gx gy gz : list R) :
  1 ≤ M a → Z.of_nat (length (knots a)) < 3 * M a →
  mexFunction a gx gy gz = None.
Proof.
  intros HM Hlen. unfold mexFunction.
  destruct (mex_init a gx gy gz) as [s0|]; [|done]. cbn -[for_below].
  unfold for_below.
  rewrite (iterate_fails _ _ _ _ _ (Z.to_nat (M a - 1))); [done|lia|].
  intros s. replace (0 + Z.of_nat (Z.to_nat (M a - 1)) * 1) with (M a - 1) by lia.
  unfold knot_body. cbn zeta.
  destruct (load (knots a) (M a - 1)) as [kx|]; [|done].
  cbn -[Z.add Z.mul Z.sub].
  destruct (load (knots a) (M a - 1 + M a)) as [ky|]; [|done].
  cbn -[Z.add Z.mul Z.sub].
  by rewrite load_beyond by lia.
Qed.

Lemma X6_witness :
  mexFunction
    {| ftaur := ftaur sample_args; ftaui := ftaui sample_args;
       M := 3; knots := [0%R; 0%R; 0%R];
       E_3x := E_3x sample_args; E_3y := E_3y sample_args;
       E_3z := E_3z sample_args; Scales := sample_scales |}
    [] [] [] = None.
Proof. apply X6_short_knots_are_undefined; simpl; lia. Defined.

(** The last offset of a window reads the last entry of a table of
    [2*M_sp] entries: on a shorter table that iteration fails. *)
Lemma conv_x_short (a : mex_args) (i m1 yind zind : Z) (V1r : R) (s : state) :
  Z.of_nat (length (E_3x a)) < 2 * M_sp (Scales a) →
  conv_x a i m1 yind zind V1r (M_sp (Scales a)) s = None.
Proof.
  intros Hlen. unfold conv_x. cbn zeta.
  destruct (load (E_2x s) _) as [e2|]; [|done]. cbn -[Z.add Z.mul Z.sub].
  by rewrite (load_beyond (E_3x a)) by lia.
Qed.

Lemma conv_y_short (a : mex_args) (i m1 m2 zind : Z) (V2r : R) (s : state) :
  Z.of_nat (length (E_3y a)) < 2 * M_sp (Scales a) →
  conv_y a i m1 m2 zind V2r (M_sp (Scales a)) s = None.
Proof.
  intros Hlen. unfold conv_y. cbn zeta.
  destruct (load (E_2y s) _) as [e2|]; [|done]. cbn -[Z.add Z.mul Z.sub].
  by rewrite (load_beyond (E_3y a)) by lia.
Qed.

Lemma conv_z_short (a : mex_args) (i m1 m2 m3 : Z) (V0r : R) (s : state) :
  Z.of_nat (length (E_3z a)) < 2 * M_sp (Scales a) →
  conv_z a i m1 m2 m3 V0r (M_sp (Scales a)) s = None.
Proof.
  intros Hlen. unfold conv_z. cbn zeta.
  destruct (load (E_2z s) _) as [e2|]; [|done]. cbn -[Z.add Z.mul Z.sub].
  by rewrite (load_beyond (E_3z a)) by lia.
Qed.

Lemma conv_y_short_x (a : mex_args) (i m1 m2 zind : Z) (V2r : R) (l2 : Z)
    (s : state) :
  1 ≤ M_sp (Scales a) →
  Z.of_nat (length (E_3x a)) < 2 * M_sp (Scales a) →
  conv_y a i m1 m2 zind V2r l2 s = None.
Proof.
  intros HM Hlen. unfold conv_y. cbn zeta.
  destruct (load (E_2y s) _) as [e2|]; [|done]. cbn -[Z.add Z.mul Z.sub for_upto].
  destruct (load (E_3y a) _) as [e3|]; [|done]. cbn -[Z.add Z.mul Z.sub for_upto].
  apply (for_upto_fails _ _ (M_sp (Scales a))); [lia|].
  intros s'. by apply conv_x_short.
Qed.

Lemma conv_z_short_xy (a : mex_args) (i m1 m2 m3 : Z) (V0r : R) (l3 : Z)
    (s : state) :
  1 ≤ M_sp (Scales a) →
  Z.of_nat (length (E_3x a)) < 2 * M_sp (Scales a) ∨
  Z.of_nat (length (E_3y a)) < 2 * M_sp (Scales a) →
  conv_z a i m1 m2 m3 V0r l3 s = None.
Proof.
  intros HM Hlen. unfold conv_z. cbn zeta.
  destruct (load (E_2z s) _) as [e2|]; [|done]. cbn -[Z.add Z.mul Z.sub for_upto].
  destruct (load (E_3z a) _) as [e3|]; [|done]. cbn -[Z.add Z.mul Z.sub for_upto].
  apply (for_upto_fails _ _ (M_sp (Scales a))); [lia|].
  intros s'. destruct Hlen as [Hx|Hy].
  - by apply conv_y_short_x.
  - by apply conv_y_short.
Qed.

(** X7. Each kernel table must hold [2*M_sp] entries.  With at least one
    knot and a table that is shorter, on any axis, the run reads past the
    end of that table and has no defined result. *)
Theorem X7_short_table_is_undefined (a : mex_args) (gx gy gz : list R) :
  1 ≤ M a →
  Z.of_nat (length (E_3x a)) < 2 * M_sp (Scales a) ∨
  Z.of_nat (length (E_3y a)) < 2 * M_sp (Scales a) ∨
  Z.of_nat (length (E_3z a)) < 2 * M_sp (Scales a) →
  mexFunction a gx gy gz = None.
Proof.
  intros HM Hlen.
  assert (HM_sp : 1 ≤ M_sp (Scales a)) by (destruct Hlen as [?|[?|?]]; lia).
  unfold mexFunction.
  destruct (mex_init a gx gy gz) as [s0|]; [|done]. cbn -[for_below].
  unfold for_below.
  rewrite (iterate_fails _ _ _ _ _ O); [done|lia|].
  intros s. replace (0 + Z.of_nat 0 * 1) with 0 by lia.
  unfold knot_body. cbn zeta.
  destruct (load (knots a) 0) as [kx|]; [|done].
  cbn -[Z.add Z.mul Z.sub for_upto fill_E_2].
  destruct (load (knots a) (0 + M a)) as [ky|]; [|done].
  cbn -[Z.add Z.mul Z.sub for_upto fill_E_2].
  destruct (load (knots a) (0 + 2 * M a)) as [kz|]; [|done].
  cbn -[Z.add Z.mul Z.sub for_upto fill_E_2].
  destruct (fill_E_2 _ _ _ _ s) as [s1|]; [|done].
  cbn -[Z.add Z.mul Z.sub for_upto].
  apply (for_upto_fails _ _ (M_sp (Scales a))); [lia|].
  intros s'. destruct Hlen as [Hx|[Hy|Hz]].
  - apply conv_z_short_xy; auto.
  - apply conv_z_short_xy; auto.
  - by apply conv_z_short.
Qed.

Lemma X7_witness :
  mexFunction
    {| ftaur := ftaur sample_args; ftaui := ftaui sample_args;
       M := 1; knots := [0%R; 0%R; 0%R];
       E_3x := [1%R; 1%R; 1%R]; E_3y := E_3y sample_args;
       E_3z := E_3z sample_args; Scales := sample_scales |}
    [] [] [] = None.
Proof. apply X7_short_table_is_undefined; [simpl; lia|left; simpl; lia]. Defined.

(** ** The scratch buffers and the outputs across the loop *)

(** A knot reads nothing of the scratch buffers but their central slots. *)
Lemma knot_body_scratch (a : mex_args) (i : Z) (s s' : state) :
  1 ≤ M_sp (Scales a) → seeded a s → seeded a s' →
  outArrayR s = outArrayR s' → outArrayI s = outArrayI s' →
  knot_body a i s = knot_body a i s'.
Proof.
  intros HM (? & ? & ? & ? & ? & ?) (? & ? & ? & ? & ? & ?) HR HI.
  unfold knot_body. cbn zeta.
  destruct (load (knots a) i) as [kx|]; [|done].
  cbn -[Z.add Z.mul Z.sub for_upto fill_E_2].
  destruct (load (knots a) (i + M a)) as [ky|]; [|done].
  cbn -[Z.add Z.mul Z.sub for_upto fill_E_2].
  destruct (load (knots a) (i + 2 * M a)) as [kz|]; [|done].
  cbn -[Z.add Z.mul Z.sub for_upto fill_E_2].
  rewrite !fill_E_2_weight_seq by done.
  unfold set_E_2. by rewrite HR, HI.
Qed.

(** X8. The result of a run, defined or not, does not depend on what the
    memory returned by [malloc] held: the scratch buffers are written
    before they are read. *)
Theorem X8_heap_contents_do_not_matter (a : mex_args)
    (gx gy gz hx hy hz : list R) :
  mexFunction a gx gy gz = mexFunction a hx hy hz.
Proof.
  unfold mexFunction.
  destruct (decide (1 ≤ M_sp (Scales a))) as [HM|HM].
  2:{ by rewrite !mex_init_fails by lia. }
  rewrite !mex_init_seeds by done. cbn -[for_below].
  unfold for_below. destruct (Z.to_nat (M a - 0)) as [|n]; [done|].
  rewrite !iterate_S.
  by rewrite (knot_body_scratch a 0 (initial a gx gy gz) (initial a hx hy hz))
    by (done || by apply initial_seeded).
Qed.

(** X9. Every knot writes its own output slot and no other: after the
    first [k] knots of a run in the stated shape, the first [k] entries of
    both outputs already hold their final values and all later entries
    are still 0. *)
Theorem X9_outputs_are_written_once (a : mex_args) (gx gy gz : list R)
    (k : nat) :
  shaped a → Z.of_nat k ≤ M a →
  ∃ s oR oI,
    after_knots a gx gy gz k = Some s ∧
    mexFunction a gx gy gz = Some (oR, oI) ∧
    ∀ i, 0 ≤ i < M a →
      (i < Z.of_nat k →
         load (outArrayR s) i = load oR i ∧
         load (outArrayI s) i = load oI i) ∧
      (Z.of_nat k ≤ i →
         load (outArrayR s) i = Some 0%R ∧
         load (outArrayI s) i = Some 0%R).
Proof.
  intros Hs Hk. pose proof (shaped_in_bounds a Hs) as Hib.
  exists (state_after a gx gy gz k),
    (engine_out a (ftaur a)), (engine_out a (ftaui a)).
  split; [by apply after_knots_state|].
  split; [by apply mexFunction_value|].
  intros i Hi.
  rewrite outArrayR_state_after, outArrayI_state_after.
  rewrite !load_engine_out by done.
  rewrite !(load_lookup (partial_out _ _ _)) by lia.
  rewrite !lookup_partial_out by lia. rewrite !Z2Nat.id by lia.
  split; intros Hik.
  - by rewrite !decide_True by done.
  - by rewrite !decide_False by lia.
Qed.

Lemma X9_witness :
  ∃ s oR oI,
    after_knots pair_args [] [] [] 1 = Some s ∧
    mexFunction pair_args [] [] [] = Some (oR, oI) ∧
    ∀ i, 0 ≤ i < M pair_args →
      (i < Z.of_nat 1 →
         load (outArrayR s) i = load oR i ∧
         load (outArrayI s) i = load oI i) ∧
      (Z.of_nat 1 ≤ i →
         load (outArrayR s) i = Some 0%R ∧
         load (outArrayI s) i = Some 0%R).
Proof.
  apply (X9_outputs_are_written_once pair_args [] [] [] 1).
  - apply v_shape, valid_pair_args.
  - simpl. lia.
Defined.

(** X10. The zeroing loop sets all [M] entries of both outputs to 0,
    whatever they held, and leaves the scratch buffers alone. *)
Theorem X10_zeroing_loop_clears_outputs (M : Z) (s : state) :
  length (outArrayR s) = Z.to_nat M → length (outArrayI s) = Z.to_nat M →
  for_below 0 M zero_body s
  = Some (set_out (replicate (Z.to_nat M) 0%R) (replicate (Z.to_nat M) 0%R) s).
Proof.
  intros HR HI. unfold for_below.
  destruct (iterate_invariant (λ c s',
    E_2x s' = E_2x s ∧ E_2y s' = E_2y s ∧ E_2z s' = E_2z s ∧
    length (outArrayR s') = Z.to_nat M ∧ length (outArrayI s') = Z.to_nat M ∧
    ∀ k, 0 ≤ k < Z.of_nat c →
      load (outArrayR s') k = Some 0%R ∧ load (outArrayI s') k = Some 0%R)
    1 (Z.to_nat (M - 0)) 0 zero_body s)
    as (s' & -> & Ex & Ey & Ez & HR' & HI' & Hz).
  { split_and!; try done. intros k Hk. lia. }
  { intros c s' Hc (Ex & Ey & Ez & HR' & HI' & Hz).
    replace (0 + Z.of_nat c * 1) with (Z.of_nat c) by lia.
    unfold zero_body.
    destruct (store (outArrayR s') (Z.of_nat c) 0%R) as [oR|] eqn:ER.
    2:{ rewrite store_in_range in ER by lia. done. }
    destruct (store (outArrayI s') (Z.of_nat c) 0%R) as [oI|] eqn:EI.
    2:{ rewrite store_in_range in EI by lia. done. }
    eexists. split; [done|]. simpl. split_and!; try done.
    - by rewrite (length_store _ _ _ _ ER).
    - by rewrite (length_store _ _ _ _ EI).
    - intros k Hk. destruct (decide (k = Z.of_nat c)) as [->|Hne].
      + by rewrite (load_store_eq _ _ _ _ ER), (load_store_eq _ _ _ _ EI).
      + rewrite (load_store_ne _ _ _ _ _ ER), (load_store_ne _ _ _ _ _ EI)
          by done.
        apply Hz. lia. }
  f_equal. destruct s' as [oR oI bx by_ bz]. simpl in *. subst.
  unfold set_out. simpl. f_equal.
  - apply load_ext. intros k Hk.
    destruct (decide (k < Z.of_nat (Z.to_nat (M - 0)))) as [Hin|Hout].
    + rewrite (proj1 (Hz k ltac:(lia))). rewrite load_lookup by done.
      symmetry. apply lookup_replicate_2. lia.
    + rewrite !load_beyond; [done| |]; rewrite ?length_replicate; lia.
  - apply load_ext. intros k Hk.
    destruct (decide (k < Z.of_nat (Z.to_nat (M - 0)))) as [Hin|Hout].
    + rewrite (proj2 (Hz k ltac:(lia))). rewrite load_lookup by done.
      symmetry. apply lookup_replicate_2. lia.
    + rewrite !load_beyond; [done| |]; rewrite ?length_replicate; lia.
Qed.

Lemma X10_witness :
  for_below 0 2 zero_body
    {| outArrayR := [3%R; 4%R]; outArrayI := [5%R; 6%R];
       E_2x := [7%R]; E_2y := []; E_2z := [] |}
  = Some (set_out (replicate (Z.to_nat 2) 0%R) (replicate (Z.to_nat 2) 0%R)
            {| outArrayR := [3%R; 4%R]; outArrayI := [5%R; 6%R];
               E_2x := [7%R]; E_2y := []; E_2z := [] |}).
Proof. apply X10_zeroing_loop_clears_outputs; reflexivity. Defined.

(** ** Knots on the negative side *)

Lemma Int_part_add_IZR (r : R) (z : Z) :
  Int_part (r + IZR z) = Int_part r + z.
Proof.
  symmetry. apply Int_part_spec. rewrite plus_IZR.
  destruct (base_Int_part r). lra.
Qed.

Lemma fold_knot_cases (k : R) :
  ((k < 0)%R ∧ fold_knot k = (k + 2 * PI)%R) ∨
  ((0 <= k)%R ∧ fold_knot k = k).
Proof. unfold fold_knot. destruct (Rlt_dec k 0); [left|right]; split; lra. Qed.

(** One period up, the lattice index grows by the extent. *)
Lemma nearest_period (M_r : Z) (k : R) :
  0 < M_r → nearest M_r (k + 2 * PI) = nearest M_r k + M_r.
Proof.
  intros HN. unfold nearest. rewrite <- Int_part_add_IZR. f_equal.
  pose proof PI_pos. field. lra.
Qed.

Lemma subcell_period (M_r : Z) (k : R) :
  0 < M_r → subcell M_r (k + 2 * PI) = subcell M_r k.
Proof.
  intros HN. unfold subcell. rewrite nearest_period, plus_IZR by done.
  assert (IZR M_r ≠ 0%R) by (apply not_0_IZR; lia).
  field. done.
Qed.

Lemma subcell_fold_knot (M_r : Z) (k : R) :
  0 < M_r → subcell M_r (fold_knot k) = subcell M_r k.
Proof.
  intros HN. destruct (fold_knot_cases k) as [[_ ->]|[_ ->]]; [|done].
  by apply subcell_period.
Qed.

(** A window that stays inside the axis after folding reads the same
    cells before folding. *)
Lemma wrapped_fold_knot (M_r M_sp : Z) (k : R) (l : Z) :
  1 ≤ M_sp → Z.Even M_r → 2 * M_sp ≤ M_r →
  (0 <= fold_knot k < 2 * PI)%R → 1 - M_sp ≤ l ≤ M_sp →
  wrapped M_r (nearest M_r (fold_knot k)) l = wrapped M_r (nearest M_r k) l.
Proof.
  intros HM [h HN] Hw Hdom Hl.
  pose proof (nearest_range M_r (fold_knot k) ltac:(lia) Hdom) as Hm.
  destruct (fold_knot_cases k) as [[_ Hf]|[_ Hf]]; rewrite Hf in *; [|done].
  rewrite nearest_period in * by lia.
  rewrite !(wrapped_mod M_r h) by lia.
  replace (nearest M_r k + M_r + l + h)
    with (nearest M_r k + l + h + 1 * M_r) by lia.
  apply Z.mod_add. lia.
Qed.

Lemma rd_fmap (f : R → R) (l : list R) (i : Z) :
  0 ≤ i < Z.of_nat (length l) → rd (f <$> l) i = f (rd l i).
Proof.
  intros Hi. unfold rd. rewrite !load_lookup by lia.
  rewrite list_lookup_fmap.
  by destruct (lookup_lt_is_Some_2 l (Z.to_nat i) ltac:(lia)) as [v ->].
Qed.

Section Folded.
Context (a : mex_args).

#[local] Abbreviation b := (with_knots a (fold_knot <$> knots a)).

Hypothesis Hs : shaped b.

Lemma knot_x_folded (i : Z) :
  0 ≤ i < M a → knot_x b i = fold_knot (knot_x a i).
Proof using Hs.
  intros Hi. destruct Hs. simpl in *. rewrite length_fmap in v_knots0.
  unfold knot_x. simpl. apply rd_fmap. lia.
Qed.

Lemma knot_y_folded (i : Z) :
  0 ≤ i < M a → knot_y b i = fold_knot (knot_y a i).
Proof using Hs.
  intros Hi. destruct Hs. simpl in *. rewrite length_fmap in v_knots0.
  unfold knot_y. simpl. apply rd_fmap. lia.
Qed.

Lemma knot_z_folded (i : Z) :
  0 ≤ i < M a → knot_z b i = fold_knot (knot_z a i).
Proof using Hs.
  intros Hi. destruct Hs. simpl in *. rewrite length_fmap in v_knots0.
  unfold knot_z. simpl. apply rd_fmap. lia.
Qed.

Lemma folded_domain (i : Z) :
  0 ≤ i < M a →
  (0 <= fold_knot (knot_x a i) < 2 * PI)%R ∧
  (0 <= fold_knot (knot_y a i) < 2 * PI)%R ∧
  (0 <= fold_knot (knot_z a i) < 2 * PI)%R.
Proof using Hs.
  intros Hi.
  rewrite <- knot_x_folded, <- knot_y_folded, <- knot_z_folded by done.
  destruct Hs. simpl in *.
  split_and!; (apply rd_domain; [done|simpl; lia]).
Qed.

Lemma in_bounds_unfolded : in_bounds a.
Proof using Hs.
  pose proof (shaped_in_bounds b Hs) as [HM Hk H3x H3y H3z Hcells].
  pose proof Hs as Hs'. destruct Hs'. simpl in *.
  rewrite length_fmap in Hk.
  split; try done.
  intros i l1 l2 l3 Hi H1 H2 H3.
  specialize (Hcells i l1 l2 l3 Hi H1 H2 H3).
  rewrite knot_x_folded, knot_y_folded, knot_z_folded in Hcells by done.
  destruct (folded_domain i Hi) as (Dx & Dy & Dz).
  rewrite (wrapped_fold_knot _ (M_sp (Scales a))),
    (wrapped_fold_knot _ (M_sp (Scales a))),
    (wrapped_fold_knot _ (M_sp (Scales a))) in Hcells by done.
  exact Hcells.
Qed.

Lemma knot_value_unfolded (grid : list R) (i : Z) :
  0 ≤ i < M a → knot_value a grid i = knot_value b grid i.
Proof using Hs.
  intros Hi. unfold knot_value.
  rewrite knot_x_folded, knot_y_folded, knot_z_folded by done.
  destruct (folded_domain i Hi) as (Dx & Dy & Dz).
  pose proof Hs as Hs'. destruct Hs'. simpl in *.
  unfold knot_sum. cbn zeta. simpl.
  rewrite !subcell_fold_knot by lia.
  unfold triple_sum.
  apply Rsum_ext. intros l3 H3%elem_of_offsets.
  apply Rsum_ext. intros l2 H2%elem_of_offsets.
  apply Rsum_ext. intros l1 H1%elem_of_offsets.
  unfold term, linear. simpl.
  by rewrite (wrapped_fold_knot _ (M_sp (Scales a))),
    (wrapped_fold_knot _ (M_sp (Scales a))),
    (wrapped_fold_knot _ (M_sp (Scales a))) by done.
Qed.

Lemma engine_out_unfolded (grid : list R) :
  engine_out a grid = engine_out b grid.
Proof using Hs.
  unfold engine_out. simpl. apply list_fmap_ext.
  intros n i [-> Hn]%lookup_seqZ. apply knot_value_unfolded. lia.
Qed.

End Folded.


Lemma shaped_negative_args :
  shaped (with_knots negative_args (fold_knot <$> knots negative_args)).
Proof.
  split; try (simpl; lia); try reflexivity; try (by exists 2).
  cbn [knots with_knots negative_args fmap list_fmap].
  repeat constructor;
    (destruct (fold_knot_cases (-1)) as [[_ ->]|[? _]]; unfold PI; lra).
Qed.


(** ** Separability *)

Lemma Rsum_scal_l {A : Type} (c : R) (f : A → R) (l : list A) :
  Rsum ((λ x, c * f x)%R <$> l) = (c * Rsum (f <$> l))%R.
Proof.
  induction l as [|x l IH]; [simpl; lra|].
  rewrite !fmap_cons, !Rsum_cons, IH. lra.
Qed.

(** A triple sum of products is the product of the three sums. *)
Lemma Rsum_product3 {A : Type} (fa fb fc : A → R) (c : R) (l : list A) :
  Rsum ((λ z, Rsum ((λ y, Rsum ((λ x, c * fc z * fb y * fa x)%R
    <$> l)) <$> l)) <$> l)
  = (c * Rsum (fa <$> l) * Rsum (fb <$> l) * Rsum (fc <$> l))%R.
Proof.
  rewrite (Rsum_ext _
    (λ z, (c * Rsum (fa <$> l) * Rsum (fb <$> l)) * fc z)%R).
  { rewrite Rsum_scal_l. ring. }
  intros z _.
  rewrite (Rsum_ext _ (λ y, (c * fc z * Rsum (fa <$> l)) * fb y)%R).
  { rewrite Rsum_scal_l. ring. }
  intros y _. rewrite Rsum_scal_l. ring.
Qed.

Lemma knot_value_product (a : mex_args) (grid fx fy fz : list R) (i : Z) :
  shaped a → 0 ≤ i < M a → product_grid a grid fx fy fz →
  knot_value a grid i
  = (axis_sum (M_rx (Scales a)) (M_sp (Scales a)) (taux (Scales a))
       (E_3x a) fx (knot_x a i)
     * axis_sum (M_ry (Scales a)) (M_sp (Scales a)) (tauy (Scales a))
         (E_3y a) fy (knot_y a i)
     * axis_sum (M_rz (Scales a)) (M_sp (Scales a)) (tauz (Scales a))
         (E_3z a) fz (knot_z a i))%R.
Proof.
  intros Hs Hi Hg.
  pose proof (shaped_nearest_x a Hs i Hi) as Hm1.
  pose proof (shaped_nearest_y a Hs i Hi) as Hm2.
  pose proof (shaped_nearest_z a Hs i Hi) as Hm3.
  destruct Hs.
  unfold knot_value, knot_sum, triple_sum, axis_sum. cbn zeta.
  set (px := E_2dummy _ (taux _) _). set (py := E_2dummy _ (tauy _) _).
  set (pz := E_2dummy _ (tauz _) _).
  set (c := (E_1 (taux _) _ * E_1 (tauy _) _ * E_1 (tauz _) _)%R).
  pose (fa := λ l1, (powerRZ px l1 * rd (E_3x a) (M_sp (Scales a) + l1 - 1)
    * rd fx (wrapped (M_rx (Scales a))
               (nearest (M_rx (Scales a)) (knot_x a i)) l1))%R).
  pose (fb := λ l2, (powerRZ py l2 * rd (E_3y a) (M_sp (Scales a) + l2 - 1)
    * rd fy (wrapped (M_ry (Scales a))
               (nearest (M_ry (Scales a)) (knot_y a i)) l2))%R).
  pose (fc := λ l3, (powerRZ pz l3 * rd (E_3z a) (M_sp (Scales a) + l3 - 1)
    * rd fz (wrapped (M_rz (Scales a))
               (nearest (M_rz (Scales a)) (knot_z a i)) l3))%R).
  trans (Rsum ((λ l3, Rsum ((λ l2, Rsum ((λ l1,
    c * fc l3 * fb l2 * fa l1)%R <$> offsets (M_sp (Scales a))))
    <$> offsets (M_sp (Scales a)))) <$> offsets (M_sp (Scales a)))).
  { apply Rsum_ext. intros l3 H3%elem_of_offsets.
    apply Rsum_ext. intros l2 H2%elem_of_offsets.
    apply Rsum_ext. intros l1 H1%elem_of_offsets.
    unfold term, fa, fb, fc. rewrite !rd_weight_seq by done.
    rewrite Hg by (apply (window_range _ (M_sp (Scales a))); done).
    ring. }
  rewrite Rsum_product3. unfold c. fold fa fb fc. ring.
Qed.


(** The unit impulse of the sample grid is the product of three unit
    impulses, one per axis. *)
Lemma sample_impulse_is_product :
  product_grid sample_args (ftaur sample_args)
    [0%R; 0%R; 1%R; 0%R] [0%R; 0%R; 1%R; 0%R] [0%R; 0%R; 1%R; 0%R].
Proof.
  intros x y z Hx Hy Hz. simpl in Hx, Hy, Hz.
  assert (Ex : x = 0 ∨ x = 1 ∨ x = 2 ∨ x = 3) by lia.
  assert (Ey : y = 0 ∨ y = 1 ∨ y = 2 ∨ y = 3) by lia.
  assert (Ez : z = 0 ∨ z = 1 ∨ z = 2 ∨ z = 3) by lia.
  destruct Ex as [->|[->|[->| ->]]], Ey as [->|[->|[->| ->]]],
    Ez as [->|[->|[->| ->]]];
    unfold rd, load, linear; simpl; lra.
Qed.

Lemma sample_zero_is_product :
  product_grid sample_args (ftaui sample_args) [] [] [].
Proof.
  intros x y z _ _ _. rewrite rd_all_zero by apply sample_ftaui_zero.
  unfold rd, load. repeat case_decide; simpl; lra.
Qed.


(** ** Odd extents *)

(** X13. The header assumes even extents, but the index computation does
    not need them.  On an odd extent [M_r = 2*h + 1] the half extent is the
    double [h + 0.5], the sum is a half-integer and the conversion to
    [int] truncates it: for a candidate within one extent of the axis
    centred on 0 the index is again the periodic one, with the shift
    [h]. *)
Theorem X13_odd_extent_wraps (M_r h m l : Z) :
  M_r = 2 * h + 1 → 0 ≤ h → - 3 * h - 1 ≤ m + l ≤ 3 * h + 1 →
  wrapped M_r m l = (m + l + h) mod M_r.
Proof.
  intros HN Hh Hr. unfold wrapped, lower_test, upper_test.
  destruct (Z.leb_spec 0 (2 * (m + l) + M_r)) as [Hl|Hl],
    (Z.ltb_spec (2 * (m + l)) M_r) as [Hu|Hu]; cbn [Z.b2z].
  - rewrite Z.quot_div_nonneg by lia.
    pose proof (Z.div_mod (2 * (m + l + (1 - 1) * M_r) + M_r) 2 ltac:(lia)).
    pose proof (Z.mod_pos_bound (2 * (m + l + (1 - 1) * M_r) + M_r) 2
                  ltac:(lia)).
    apply (Z.mod_unique _ _ 0); lia.
  - rewrite Z.quot_div_nonneg by lia.
    pose proof (Z.div_mod (2 * (m + l + (0 - 1) * M_r) + M_r) 2 ltac:(lia)).
    pose proof (Z.mod_pos_bound (2 * (m + l + (0 - 1) * M_r) + M_r) 2
                  ltac:(lia)).
    apply (Z.mod_unique _ _ 1); lia.
  - rewrite Z.quot_div_nonneg by lia.
    pose proof (Z.div_mod (2 * (m + l + (1 - 0) * M_r) + M_r) 2 ltac:(lia)).
    pose proof (Z.mod_pos_bound (2 * (m + l + (1 - 0) * M_r) + M_r) 2
                  ltac:(lia)).
    apply (Z.mod_unique _ _ (-1)); lia.
  - lia.
Qed.

Lemma X13_witness : wrapped 5 4 2 = (4 + 2 + 2) mod 5.
Proof. apply (X13_odd_extent_wraps 5 2 4 2); lia. Defined.
